(** * fs-mcp: the filesystem tool set ([src/fs-spec.js])

    A shallow embedding of the six filesystem tools ([ls], [readFile],
    [writeFile], [mkdir], [rename], [rm]), of the path helper [safe] that
    confines them to the project root, of the parameter shapes, and of the
    result envelope [asResult].

    The source file holds two variants of the tool set: the plain one
    (module [FsSpec], shapes [LsShape] .. [RmShape]) and the alias-friendly
    one (module [FsMcp], shapes [Ls] .. [Remove] over the common scalar
    [Encoding]).  The helpers and the six executors are the same in both.

    The parts of the platform the code calls are modelled next to it:
    - JavaScript strings are sequences of UTF-16 code units ([jsstring]);
    - [node:path] in its POSIX flavour ([Path.resolve], [Path.join],
      [Path.basename]);
    - [Buffer.from] / [Buffer.toString] for the encodings [utf8] and [base64];
    - [node:fs] over a finite map from path keys to nodes, holding regular
      files and directories with their modification times (no symbolic
      links, special files, permission bits or access times), with explicit
      state passing, and with the checks a path goes through: no NUL
      character, and the limits of the system on the length of a name and
      of a path;
    - the [zod] combinators the shapes are built from. *)

From Stdlib Require Import ZArith Lia List Bool Ascii String DecimalString.
From stdpp Require Import base option list gmap.

Local Open Scope Z_scope.
Local Set Warnings "-register-all".

(* ===================================================================== *)
(** ** JavaScript strings *)
(* ===================================================================== *)

(** A JavaScript string is a sequence of 16-bit code units. *)
Abbreviation jsstring := (list Z).

(** A well-formed code unit. *)
Definition code_unit (u : Z) : Prop := 0 <= u < 65536.

(** String literals of the source, written in ASCII. *)
Definition lit (s : string) : jsstring :=
  map (fun a => Z.of_N (N_of_ascii a)) (list_ascii_of_string s).

Definition CHAR_FORWARD_SLASH : Z := 47.
Definition CHAR_DOT : Z := 46.

(** [a === b] on strings. *)
Fixpoint str_eqb (a b : jsstring) : bool :=
  match a, b with
  | [], [] => true
  | x :: a', y :: b' => (x =? y) && str_eqb a' b'
  | _, _ => false
  end.

(** [s.startsWith(p)]. *)
Fixpoint startsWith (s p : jsstring) : bool :=
  match p, s with
  | [], _ => true
  | c :: p', d :: s' => (c =? d) && startsWith s' p'
  | _ :: _, [] => false
  end.

(* ===================================================================== *)
(** ** [node:path], POSIX *)
(* ===================================================================== *)

Module Path.

(** The pieces of a path between separators; [cur] accumulates the piece
    being read, reversed. *)
Fixpoint split_acc (cur : jsstring) (p : jsstring) : list jsstring :=
  match p with
  | [] => [rev cur]
  | c :: p' =>
      if c =? CHAR_FORWARD_SLASH then rev cur :: split_acc [] p'
      else split_acc (c :: cur) p'
  end.

Definition split (p : jsstring) : list jsstring := split_acc [] p.

Definition is_dot (s : jsstring) : bool := str_eqb s [CHAR_DOT].
Definition is_dotdot (s : jsstring) : bool := str_eqb s [CHAR_DOT; CHAR_DOT].

(** [normalizeString]: empty pieces and [.] are dropped, [..] removes the
    piece before it; at the top [..] is dropped, or kept when
    [allowAboveRoot].  [res] is the output so far, last piece first. *)
Fixpoint normalize_acc (allowAboveRoot : bool) (res : list jsstring)
    (segs : list jsstring) : list jsstring :=
  match segs with
  | [] => rev res
  | s :: segs' =>
      if match s with [] => true | _ => false end || is_dot s
      then normalize_acc allowAboveRoot res segs'
      else if is_dotdot s then
        match res with
        | last :: res' =>
            if is_dotdot last
            then normalize_acc allowAboveRoot
                   (if allowAboveRoot then s :: res else res) segs'
            else normalize_acc allowAboveRoot res' segs'
        | [] =>
            normalize_acc allowAboveRoot
              (if allowAboveRoot then [s] else []) segs'
        end
      else normalize_acc allowAboveRoot (s :: res) segs'
  end.

Definition normalizeSegments (allowAboveRoot : bool) (p : jsstring)
  : list jsstring :=
  normalize_acc allowAboveRoot [] (split p).

(** Pieces joined by the separator. *)
Fixpoint join_segs (segs : list jsstring) : jsstring :=
  match segs with
  | [] => []
  | [s] => s
  | s :: segs' => s ++ CHAR_FORWARD_SLASH :: join_segs segs'
  end.

Definition normalizeString (allowAboveRoot : bool) (p : jsstring) : jsstring :=
  join_segs (normalizeSegments allowAboveRoot p).

Definition isAbsolute (p : jsstring) : bool :=
  match p with
  | c :: _ => c =? CHAR_FORWARD_SLASH
  | [] => false
  end.

(** The loop of [path.resolve]: arguments are taken from the last one
    backwards until the path built so far is absolute; empty arguments
    are skipped.  [args] is given last argument first. *)
Fixpoint resolve_loop (args : list jsstring) (resolvedPath : jsstring)
    : jsstring * bool :=
  match args with
  | [] => (resolvedPath, false)
  | p :: args' =>
      match p with
      | [] => resolve_loop args' resolvedPath
      | _ =>
          let resolvedPath' := p ++ CHAR_FORWARD_SLASH :: resolvedPath in
          if isAbsolute p then (resolvedPath', true)
          else resolve_loop args' resolvedPath'
      end
  end.

(** [path.resolve(...args)] in a process whose working directory is
    [cwd]. *)
Definition resolve (cwd : jsstring) (args : list jsstring) : jsstring :=
  let '(resolvedPath, resolvedAbsolute) := resolve_loop (rev (cwd :: args)) [] in
  let norm := normalizeString (negb resolvedAbsolute) resolvedPath in
  if resolvedAbsolute then CHAR_FORWARD_SLASH :: norm
  else match norm with [] => [CHAR_DOT] | _ => norm end.

Definition endsWithSlash (p : jsstring) : bool :=
  match rev p with
  | c :: _ => c =? CHAR_FORWARD_SLASH
  | [] => false
  end.

(** [path.normalize(p)]. *)
Definition normalize (p : jsstring) : jsstring :=
  match p with
  | [] => [CHAR_DOT]
  | _ =>
      let abs := isAbsolute p in
      let trailing := endsWithSlash p in
      let n := normalizeString (negb abs) p in
      match n with
      | [] =>
          if abs then [CHAR_FORWARD_SLASH]
          else if trailing then [CHAR_DOT; CHAR_FORWARD_SLASH] else [CHAR_DOT]
      | _ =>
          let n' := if trailing then n ++ [CHAR_FORWARD_SLASH] else n in
          if abs then CHAR_FORWARD_SLASH :: n' else n'
      end
  end.

(** [path.join(a, b)]: the non-empty arguments joined by the separator,
    then normalized. *)
Definition join (a b : jsstring) : jsstring :=
  match a, b with
  | [], [] => [CHAR_DOT]
  | [], _ => normalize b
  | _, [] => normalize a
  | _, _ => normalize (a ++ CHAR_FORWARD_SLASH :: b)
  end.

(** [path.basename(p)]: the last non-empty piece. *)
Definition basename (p : jsstring) : jsstring :=
  match rev (filter (fun s => s <> []) (split p)) with
  | s :: _ => s
  | [] => []
  end.

End Path.

(* ===================================================================== *)
(** ** The process and the project root *)
(* ===================================================================== *)

(** What the module reads from its process when it is loaded:
    [process.cwd()] and [process.env.FS_ROOT] ([None] when unset). *)
Record Process := {
  cwd : jsstring;
  FS_ROOT : option jsstring;
}.

(** [const ROOT = path.resolve(process.env.FS_ROOT ?? process.cwd())]. *)
Definition ROOT (proc : Process) : jsstring :=
  Path.resolve (cwd proc) [default (cwd proc) (FS_ROOT proc)].

(* ===================================================================== *)
(** ** [Buffer]: the encodings [utf8] and [base64] *)
(* ===================================================================== *)

(** A [Buffer] is a sequence of bytes. *)
Abbreviation Buffer := (list Z).

Definition byte (b : Z) : Prop := 0 <= b < 256.

Module Utf8.

Definition is_high (u : Z) : bool := (0xD800 <=? u) && (u <=? 0xDBFF).
Definition is_low (u : Z) : bool := (0xDC00 <=? u) && (u <=? 0xDFFF).

(** U+FFFD, the replacement character, and its three bytes. *)
Definition REPLACEMENT : Z := 0xFFFD.
Definition REPLACEMENT_BYTES : Buffer := [0xEF; 0xBF; 0xBD].

(** [String.prototype.isWellFormed]: every code unit is in range and the
    surrogates come in pairs, high then low. *)
Fixpoint isWellFormed (s : jsstring) : bool :=
  match s with
  | [] => true
  | u :: t =>
      if is_high u then
        match t with
        | v :: t' => is_low v && isWellFormed t'
        | [] => false
        end
      else negb (is_low u) && (0 <=? u) && (u <? 0x10000) && isWellFormed t
  end.

Definition encode2 (c : Z) : Buffer :=
  [0xC0 + c / 64; 0x80 + c mod 64].
Definition encode3 (c : Z) : Buffer :=
  [0xE0 + c / 4096; 0x80 + (c / 64) mod 64; 0x80 + c mod 64].
Definition encode4 (c : Z) : Buffer :=
  [0xF0 + c / 262144; 0x80 + (c / 4096) mod 64;
   0x80 + (c / 64) mod 64; 0x80 + c mod 64].

(** The code point of a surrogate pair. *)
Definition pair_point (hi lo : Z) : Z :=
  0x10000 + (hi - 0xD800) * 1024 + (lo - 0xDC00).

(** [Buffer.from(s, 'utf8')]: a surrogate pair becomes one four-byte
    sequence; a surrogate on its own is written as U+FFFD. *)
Fixpoint encode (s : jsstring) : Buffer :=
  match s with
  | [] => []
  | u :: t =>
      if u <? 0x80 then u :: encode t
      else if u <? 0x800 then encode2 u ++ encode t
      else if is_high u then
        match t with
        | v :: t' =>
            if is_low v then encode4 (pair_point u v) ++ encode t'
            else REPLACEMENT_BYTES ++ encode t
        | [] => REPLACEMENT_BYTES
        end
      else if is_low u then REPLACEMENT_BYTES ++ encode t
      else encode3 u ++ encode t
  end.

Definition in_range (lo hi b : Z) : bool := (lo <=? b) && (b <=? hi).

(** Bounds on the byte after a three-byte or four-byte lead (they exclude
    overlong forms, surrogates and code points above U+10FFFF). *)
Definition second_lo (lead : Z) : Z :=
  if lead =? 0xE0 then 0xA0 else if lead =? 0xF0 then 0x90 else 0x80.
Definition second_hi (lead : Z) : Z :=
  if lead =? 0xED then 0x9F else if lead =? 0xF4 then 0x8F else 0xBF.

(** The code units of a code point. *)
Definition units (c : Z) : jsstring :=
  if c <? 0x10000 then [c]
  else [0xD800 + (c - 0x10000) / 1024; 0xDC00 + (c - 0x10000) mod 1024].

(** [buf.toString('utf8')]: every maximal ill-formed run becomes one
    U+FFFD and decoding resumes at the byte that broke the sequence. *)
Fixpoint decode (bs : Buffer) : jsstring :=
  match bs with
  | [] => []
  | b1 :: t1 =>
      if in_range 0x00 0x7F b1 then b1 :: decode t1
      else if in_range 0xC2 0xDF b1 then
        match t1 with
        | [] => [REPLACEMENT]
        | b2 :: t2 =>
            if in_range 0x80 0xBF b2
            then ((b1 - 0xC0) * 64 + (b2 - 0x80)) :: decode t2
            else REPLACEMENT :: decode t1
        end
      else if in_range 0xE0 0xEF b1 then
        match t1 with
        | [] => [REPLACEMENT]
        | b2 :: t2 =>
            if in_range (second_lo b1) (second_hi b1) b2 then
              match t2 with
              | [] => [REPLACEMENT]
              | b3 :: t3 =>
                  if in_range 0x80 0xBF b3
                  then ((b1 - 0xE0) * 4096 + (b2 - 0x80) * 64 + (b3 - 0x80))
                         :: decode t3
                  else REPLACEMENT :: decode t2
              end
            else REPLACEMENT :: decode t1
        end
      else if in_range 0xF0 0xF4 b1 then
        match t1 with
        | [] => [REPLACEMENT]
        | b2 :: t2 =>
            if in_range (second_lo b1) (second_hi b1) b2 then
              match t2 with
              | [] => [REPLACEMENT]
              | b3 :: t3 =>
                  if in_range 0x80 0xBF b3 then
                    match t3 with
                    | [] => [REPLACEMENT]
                    | b4 :: t4 =>
                        if in_range 0x80 0xBF b4
                        then units ((b1 - 0xF0) * 262144 + (b2 - 0x80) * 4096
                                    + (b3 - 0x80) * 64 + (b4 - 0x80))
                               ++ decode t4
                        else REPLACEMENT :: decode t3
                    end
                  else REPLACEMENT :: decode t2
              end
            else REPLACEMENT :: decode t1
        end
      else REPLACEMENT :: decode t1
  end.

End Utf8.

Module Base64.

Definition PAD : Z := 61.

Definition ALPHABET : jsstring :=
  lit "ABCDEFGHIJKLMNOPQRSTUVWXYZabcdefghijklmnopqrstuvwxyz0123456789+/".

(** The character of a six-bit value. *)
Definition char (v : Z) : Z := nth (Z.to_nat v) ALPHABET 0.

(** [buf.toString('base64')]: three bytes give four characters; a last
    group of one or two bytes is padded with [=]. *)
Fixpoint encode (bs : Buffer) : jsstring :=
  match bs with
  | [] => []
  | [a] => [char (a / 4); char ((a mod 4) * 16); PAD; PAD]
  | [a; b] =>
      [char (a / 4); char ((a mod 4) * 16 + b / 16); char ((b mod 16) * 4); PAD]
  | a :: b :: c :: t =>
      [char (a / 4); char ((a mod 4) * 16 + b / 16);
       char ((b mod 16) * 4 + c / 64); char (c mod 64)] ++ encode t
  end.

(** The decoder looks at the low byte of a code unit only: a code unit
    above 255 counts as the character of its low eight bits. *)
Definition lowByte (c : Z) : Z := c mod 256.

(** The six-bit value of a code unit, by its low byte, in the standard
    alphabet or in the URL-safe one; [None] for every other low byte. *)
Definition unbase64 (c : Z) : option Z :=
  let b := lowByte c in
  if (65 <=? b) && (b <=? 90) then Some (b - 65)
  else if (97 <=? b) && (b <=? 122) then Some (b - 97 + 26)
  else if (48 <=? b) && (b <=? 57) then Some (b - 48 + 52)
  else if (b =? 43) || (b =? 45) then Some 62
  else if (b =? 47) || (b =? 95) then Some 63
  else None.

(** The six-bit values read by the decoder: a code unit whose low byte is
    outside the alphabet is skipped, and the first one whose low byte is
    [=] ends the input. *)
Fixpoint sextets (s : jsstring) : list Z :=
  match s with
  | [] => []
  | c :: t =>
      match unbase64 c with
      | Some v => v :: sextets t
      | None => if lowByte c =? PAD then [] else sextets t
      end
  end.

(** Four values give three bytes; a last group of two or three values
    gives one or two bytes, a single left-over value gives none. *)
Fixpoint pack (vs : list Z) : Buffer :=
  match vs with
  | a :: b :: c :: d :: t =>
      [a * 4 + b / 16; (b mod 16) * 16 + c / 4; (c mod 4) * 64 + d] ++ pack t
  | [a; b; c] => [a * 4 + b / 16; (b mod 16) * 16 + c / 4]
  | [a; b] => [a * 4 + b / 16]
  | _ => []
  end.

(** [Buffer.from(s, 'base64')].  It is defined on every string. *)
Definition decode (s : jsstring) : Buffer := pack (sextets s).

End Base64.

(* ===================================================================== *)
(** ** Errors and outcomes *)
(* ===================================================================== *)

(** The [code] of an error raised by [node:fs]. *)
Inductive errcode :=
  | ENOENT | ENOTDIR | EISDIR | EEXIST | ENOTEMPTY | EINVAL | EBUSY
  | ENAMETOOLONG | ERR_FS_EISDIR | ERR_INVALID_ARG_VALUE.

(** What an executor can throw: [new Error(message)] from [safe], or an
    error of [node:fs].  [ZodError] is what parsing a raw argument object
    against a shape throws. *)
Inductive error :=
  | Error (message : string)
  | FsError (code : errcode)
  | ZodError.

(** The outcome of evaluating an expression: a value, or a thrown error
    (for an [async] function: a fulfilled or a rejected promise). *)
Inductive outcome (A : Type) :=
  | Returned (a : A)
  | Thrown (e : error).
Arguments Returned {A} a.
Arguments Thrown {A} e.

(* ===================================================================== *)
(** ** [node:fs] *)
(* ===================================================================== *)

(** A node of the file tree, with its time of last modification in
    milliseconds. *)
Inductive node :=
  | File (content : Buffer) (mtimeMs : Z)
  | Dir (mtimeMs : Z).

(** The file tree: nodes by the pieces of their absolute path; the key [[]]
    is the directory [/]. *)
Abbreviation FileSystem := (gmap (list jsstring) node).

(** A computation over the file tree. *)
Definition FS (A : Type) : Type := FileSystem -> outcome A * FileSystem.

Definition ret {A} (a : A) : FS A := fun fs => (Returned a, fs).
Definition throw {A} (e : error) : FS A := fun fs => (Thrown e, fs).
Definition bind {A B} (c : FS A) (k : A -> FS B) : FS B :=
  fun fs =>
    match c fs with
    | (Returned a, fs') => k a fs'
    | (Thrown e, fs') => (Thrown e, fs')
    end.

Notation "x <- c ;; k" := (bind c (fun x => k))
  (at level 100, c at next level, right associativity).
Notation "c ;;; k" := (bind c (fun _ => k))
  (at level 100, right associativity).

(** Evaluating a pure expression that may throw, inside a computation. *)
Definition lift {A} (o : outcome A) : FS A :=
  match o with
  | Returned a => ret a
  | Thrown e => throw e
  end.

(** [await Promise.all(xs.map(f))]; the calls read the tree only, so the
    order in which they complete does not show. *)
Fixpoint mapM {A B} (f : A -> FS B) (xs : list A) : FS (list B) :=
  match xs with
  | [] => ret []
  | x :: xs' => y <- f x ;; ys <- mapM f xs' ;; ret (y :: ys)
  end.

(** What [fs.stat] resolves to ([fs.Stats]). *)
Record Stats := {
  isFile : bool;
  isDirectory : bool;
  size : Z;
  mtimeMs : Z;
}.

Module Fs.

(** The size [stat] reports for a directory; it depends on the file
    system. *)
Definition DIR_SIZE : Z := 4096.

(** The limits of the system (Linux): a name holds at most [NAME_MAX]
    bytes, and a path has to fit in [PATH_MAX] bytes with its terminator. *)
Definition NAME_MAX : Z := 255.
Definition PATH_MAX : Z := 4096.

(** The length in bytes of a string handed to the system, which receives
    it in UTF-8. *)
Definition byteLength (s : jsstring) : Z := Z.of_nat (length (Utf8.encode s)).

(** The key of a path: its non-empty pieces.  The paths that reach
    [node:fs] come out of [path.resolve] and [path.join], so they are
    absolute and hold no [.] or [..]. *)
Definition key (p : jsstring) : list jsstring :=
  filter (fun s => s <> []) (Path.split p).

Definition parent (k : list jsstring) : list jsstring := removelast k.

Definition is_dir (fs : FileSystem) (k : list jsstring) : bool :=
  match fs !! k with Some (Dir _) => true | _ => false end.

Definition is_file (fs : FileSystem) (k : list jsstring) : bool :=
  match fs !! k with Some (File _ _) => true | _ => false end.

(** [strip pre k]: what is left of [k] below [pre]. *)
Fixpoint strip (pre k : list jsstring) : option (list jsstring) :=
  match pre, k with
  | [], _ => Some k
  | a :: pre', b :: k' => if str_eqb a b then strip pre' k' else None
  | _ :: _, [] => None
  end.

Definition under (pre k : list jsstring) : bool :=
  match strip pre k with Some _ => true | None => false end.

(** Some piece of the way to [k], short of [k] itself, is a regular
    file. *)
Definition through_file (fs : FileSystem) (k : list jsstring) : bool :=
  existsb (fun i => is_file fs (take i k)) (seq 0 (length k)).

(** Some piece of the way to [k], or [k] itself, is a regular file. *)
Definition blocked (fs : FileSystem) (k : list jsstring) : bool :=
  through_file fs k || is_file fs k.

(** *** The checks of a path

    A path is checked before a node is looked up or created at it:
    [node:fs] itself refuses a string that holds a NUL character, and the
    system refuses a path that is too long, a name that is too long, and a
    path that leads through something that is not a directory.  The trees
    of the model hold no node at a path that fails these checks (no file
    system has a name with a NUL character or a name that does not fit),
    so the checks are written out where nothing is found at the path. *)

Definition has_nul (p : jsstring) : bool := existsb (fun c => c =? 0) p.

(** The name fits in a directory entry. *)
Definition fits (name : jsstring) : bool := byteLength name <=? NAME_MAX.

(** [node:fs] throws a [TypeError] with the code [ERR_INVALID_ARG_VALUE]
    for a path with a NUL character in it, before it calls the system. *)
Definition check_arg (p : jsstring) : option errcode :=
  if has_nul p then Some ERR_INVALID_ARG_VALUE else None.

(** The system takes no path of [PATH_MAX] bytes or more. *)
Definition check_length (p : jsstring) : option errcode :=
  if PATH_MAX <=? byteLength p then Some ENAMETOOLONG else None.

(** The walk from the directory [pre] down the names [rest], each of
    which has to be a directory: [None] when they all are, and otherwise
    the error at the first that is not. *)
Fixpoint walk (fs : FileSystem) (pre rest : list jsstring) : option errcode :=
  match rest with
  | [] => None
  | s :: rest' =>
      match fs !! (pre ++ [s]) with
      | Some (Dir _) => walk fs (pre ++ [s]) rest'
      | Some (File _ _) => Some ENOTDIR
      | None => Some (if fits s then ENOENT else ENAMETOOLONG)
      end
  end.

(** The last name of the path has to fit. *)
Definition check_name (k : list jsstring) : option errcode :=
  match last k with
  | Some name => if fits name then None else Some ENAMETOOLONG
  | None => None
  end.

(** The first error of a sequence of checks. *)
Fixpoint first_error (checks : list (option errcode)) : option errcode :=
  match checks with
  | [] => None
  | Some e :: _ => Some e
  | None :: checks' => first_error checks'
  end.

(** What is wrong with a path [p] at which nothing is found, short of its
    not existing: [None] when the directory that would hold [p] exists and
    a node could be created at [p]. *)
Definition fault (fs : FileSystem) (p : jsstring) : option errcode :=
  first_error [check_arg p; check_length p;
               walk fs [] (parent (key p)); check_name (key p)].

(** The error of looking up [p] when nothing is found there. *)
Definition missing (fs : FileSystem) (p : jsstring) : error :=
  FsError (default ENOENT (fault fs p)).

(** A node can be created at [p], where nothing is found. *)
Definition creatable (fs : FileSystem) (p : jsstring) : bool :=
  match fault fs p with
  | None => negb (bool_decide (key p = []))
  | Some _ => false
  end.

(** The directories on the way to [p] all exist. *)
Definition in_directory (fs : FileSystem) (p : jsstring) : bool :=
  match walk fs [] (parent (key p)) with
  | None => true
  | Some _ => false
  end.

(** A path the system takes: no NUL character, short enough, and made of
    names that fit. *)
Definition valid (p : jsstring) : bool :=
  negb (has_nul p) && (byteLength p <? PATH_MAX) && forallb fits (key p).

(** The names in directory [k], in the order of the tree. *)
Definition children (fs : FileSystem) (k : list jsstring) : list jsstring :=
  omap (fun kn => match strip k kn.1 with
                  | Some [n] => Some n
                  | _ => None
                  end) (map_to_list fs).

Definition set_mtime (t : Z) (n : node) : node :=
  match n with
  | File c _ => File c t
  | Dir _ => Dir t
  end.

(** Adding or removing an entry of a directory updates its [mtime]. *)
Definition touch (t : Z) (k : list jsstring) (fs : FileSystem) : FileSystem :=
  alter (set_mtime t) k fs.

Definition stats_of (n : node) : Stats :=
  match n with
  | File c t =>
      {| isFile := true; isDirectory := false;
         size := Z.of_nat (length c); mtimeMs := t |}
  | Dir t =>
      {| isFile := false; isDirectory := true;
         size := DIR_SIZE; mtimeMs := t |}
  end.

(** [fs.stat(p)]. *)
Definition stat (p : jsstring) : FS Stats := fun fs =>
  match fs !! key p with
  | Some n => (Returned (stats_of n), fs)
  | None => (Thrown (missing fs p), fs)
  end.

(** [fs.readdir(p)]. *)
Definition readdir (p : jsstring) : FS (list jsstring) := fun fs =>
  match fs !! key p with
  | Some (Dir _) => (Returned (children fs (key p)), fs)
  | Some (File _ _) => (Thrown (FsError ENOTDIR), fs)
  | None => (Thrown (missing fs p), fs)
  end.

(** [fs.readFile(p)], without an encoding: the bytes of the file. *)
Definition readFile (p : jsstring) : FS Buffer := fun fs =>
  match fs !! key p with
  | Some (File c _) => (Returned c, fs)
  | Some (Dir _) => (Thrown (FsError EISDIR), fs)
  | None => (Thrown (missing fs p), fs)
  end.

(** A file can be written at [p]: it is a regular file, or nothing is
    there and a node can be created. *)
Definition writable (fs : FileSystem) (p : jsstring) : bool :=
  match fs !! key p with
  | Some (File _ _) => true
  | Some (Dir _) => false
  | None => creatable fs p
  end.

(** [fs.writeFile(p, buf, { flag })] at time [now]; [append] is the flag
    ['a'], otherwise the flag is ['w'].  The directory that will hold the
    file has to exist.  With ['w'] the file is cut to nothing and then
    written, which sets its modification time even when [buf] is empty;
    with ['a'] nothing changes when there is nothing to append. *)
Definition writeFile (now : Z) (p : jsstring) (buf : Buffer) (append : bool)
    : FS unit := fun fs =>
  let k := key p in
  match fs !! k with
  | Some (Dir _) => (Thrown (FsError EISDIR), fs)
  | Some (File c _) =>
      if append
      then match buf with
           | [] => (Returned tt, fs)
           | _ :: _ => (Returned tt, <[k := File (c ++ buf) now]> fs)
           end
      else (Returned tt, <[k := File buf now]> fs)
  | None =>
      if creatable fs p
      then (Returned tt, <[k := File buf now]> (touch now (parent k) fs))
      else (Thrown (missing fs p), fs)
  end.

(** The walk of [fs.mkdir(p, { recursive: true })]: every missing
    directory on the way from [pre] down [rest] is created, one after the
    other; a regular file in the way is an error, [EEXIST] at the end of
    the path and [ENOTDIR] before it, and so is a name that does not fit,
    which is found when its turn comes: the directories created before it
    stay. *)
Fixpoint mkdirp (now : Z) (pre rest : list jsstring) (fs : FileSystem)
    : outcome unit * FileSystem :=
  match rest with
  | [] => (Returned tt, fs)
  | s :: rest' =>
      let k := pre ++ [s] in
      match fs !! k with
      | Some (Dir _) => mkdirp now k rest' fs
      | Some (File _ _) =>
          (Thrown (FsError (match rest' with [] => EEXIST | _ => ENOTDIR end)),
           fs)
      | None =>
          if fits s
          then mkdirp now k rest' (<[k := Dir now]> (touch now pre fs))
          else (Thrown (FsError ENAMETOOLONG), fs)
      end
  end.

(** [fs.mkdir(p, { recursive })] at time [now]. *)
Definition mkdir (now : Z) (p : jsstring) (recursive : bool) : FS unit :=
  fun fs =>
  let k := key p in
  if recursive then
    match fs !! k, first_error [check_arg p; check_length p] with
    | None, Some e => (Thrown (FsError e), fs)
    | _, _ => mkdirp now [] k fs
    end
  else
    match fs !! k with
    | Some _ => (Thrown (FsError EEXIST), fs)
    | None =>
        if creatable fs p
        then (Returned tt, <[k := Dir now]> (touch now (parent k) fs))
        else (Thrown (missing fs p), fs)
    end.

(** [fs.unlink(p)]. *)
Definition unlink (now : Z) (p : jsstring) : FS unit := fun fs =>
  let k := key p in
  match fs !! k with
  | Some (File _ _) => (Returned tt, delete k (touch now (parent k) fs))
  | Some (Dir _) => (Thrown (FsError EISDIR), fs)
  | None => (Thrown (missing fs p), fs)
  end.

(** The tree without [k] and everything below it. *)
Definition prune (k : list jsstring) (fs : FileSystem) : FileSystem :=
  filter (fun kn => under k kn.1 = false) fs.

(** [fs.rm(p, { recursive, force: true })].  [force] makes a path that
    does not exist ([ENOENT]) a success, and no other error.  A directory
    is only removed with [recursive]; without it [fs.rm] refuses every
    directory, empty or not, with the error [ERR_FS_EISDIR] (Path is a
    directory).  The directory [/] cannot be removed. *)
Definition rm (now : Z) (p : jsstring) (recursive : bool) : FS unit :=
  fun fs =>
  let k := key p in
  match fs !! k with
  | None =>
      match fault fs p with
      | None | Some ENOENT => (Returned tt, fs)
      | Some e => (Thrown (FsError e), fs)
      end
  | Some (File _ _) => (Returned tt, delete k (touch now (parent k) fs))
  | Some (Dir _) =>
      if negb recursive then (Thrown (FsError ERR_FS_EISDIR), fs)
      else if bool_decide (k = []) then (Thrown (FsError EBUSY), fs)
      else (Returned tt, prune k (touch now (parent k) fs))
  end.

(** The nodes at and below [from], moved to [to]. *)
Definition moved (from to : list jsstring) (fs : FileSystem) : FileSystem :=
  list_to_map
    (omap (M := list)
          (fun kn : list jsstring * node =>
             match strip from kn.1 with
             | Some rest => Some (to ++ rest, kn.2)
             | None => None
             end) (map_to_list fs)).

(** The checks of [fs.rename(from, to)], in the order in which they are
    made: [node:fs] checks both strings; the system takes both paths,
    reaches the directory of each, refuses [/] on either side, looks up
    the two names, and refuses to move a directory below itself
    ([EINVAL]) or a node onto a directory above it ([ENOTEMPTY]). *)
Definition rename_checks (fs : FileSystem) (from to : jsstring)
    : option errcode :=
  let kf := key from in
  let kt := key to in
  let unless_found (p : jsstring) (check : option errcode) :=
    match fs !! key p with
    | Some _ => None
    | None => check
    end in
  first_error
    [ unless_found from (check_arg from);
      unless_found to (check_arg to);
      unless_found from (check_length from);
      unless_found to (check_length to);
      walk fs [] (parent kf);
      walk fs [] (parent kt);
      (if bool_decide (kf = []) || bool_decide (kt = [])
       then Some EBUSY else None);
      unless_found from (Some (default ENOENT (check_name kf)));
      unless_found to (check_name kt);
      (if under kf kt && negb (bool_decide (kf = kt))
       then Some EINVAL else None);
      (if under kt kf && negb (bool_decide (kf = kt))
       then Some ENOTEMPTY else None) ].

(** [fs.rename(from, to)]: after the checks, renaming a node to itself
    does nothing; a file replaces a file, a directory replaces an empty
    directory. *)
Definition rename (now : Z) (from to : jsstring) : FS unit := fun fs =>
  let kf := key from in
  let kt := key to in
  let move :=
    (Returned tt,
     moved kf kt fs
       ∪ prune kt (prune kf (touch now (parent kt)
                               (touch now (parent kf) fs)))) in
  match rename_checks fs from to with
  | Some e => (Thrown (FsError e), fs)
  | None =>
      if bool_decide (kf = kt) then (Returned tt, fs)
      else
        match fs !! kf, fs !! kt with
        | None, _ => (Thrown (FsError ENOENT), fs)
        | Some (File _ _), Some (Dir _) => (Thrown (FsError EISDIR), fs)
        | Some (File _ _), _ => move
        | Some (Dir _), Some (File _ _) => (Thrown (FsError ENOTDIR), fs)
        | Some (Dir _), Some (Dir _) =>
            match children fs kt with
            | _ :: _ => (Thrown (FsError ENOTEMPTY), fs)
            | [] => move
            end
        | Some (Dir _), None => move
        end
  end.

End Fs.

(* ===================================================================== *)
(** ** [JSON.stringify] *)
(* ===================================================================== *)

(** The values the tools hand to [asResult]: strings, and the arrays of
    plain objects with string and number properties that [ls] builds. *)
Inductive json :=
  | JString (s : jsstring)
  | JNumber (n : Z)
  | JArray (items : list json)
  | JObject (props : list (string * json)).

Module Json.

Definition hex_digit (d : Z) : Z := nth (Z.to_nat d) (lit "0123456789abcdef") 0.

Definition BACKSLASH : Z := 92.

(** The escape of a code unit by its four hexadecimal digits. *)
Definition escape_u (u : Z) : jsstring :=
  [BACKSLASH; 117; hex_digit (u / 4096); hex_digit ((u / 256) mod 16);
   hex_digit ((u / 16) mod 16); hex_digit (u mod 16)].

(** The quote, the backslash, and the control characters with a short
    escape: backspace, form feed, line feed, carriage return, tab. *)
Definition escape_unit (u : Z) : jsstring :=
  if u =? 34 then [BACKSLASH; 34]
  else if u =? 92 then [BACKSLASH; BACKSLASH]
  else if u =? 8 then [BACKSLASH; 98]
  else if u =? 12 then [BACKSLASH; 102]
  else if u =? 10 then [BACKSLASH; 110]
  else if u =? 13 then [BACKSLASH; 114]
  else if u =? 9 then [BACKSLASH; 116]
  else if u <? 32 then escape_u u
  else [u].

(** The characters of a quoted string: the quote, the backslash and the
    control characters are escaped, and so is a surrogate on its own. *)
Fixpoint quote_body (s : jsstring) : jsstring :=
  match s with
  | [] => []
  | u :: t =>
      if Utf8.is_high u then
        match t with
        | v :: t' =>
            if Utf8.is_low v then u :: v :: quote_body t'
            else escape_u u ++ quote_body t
        | [] => escape_u u
        end
      else if Utf8.is_low u then escape_u u ++ quote_body t
      else escape_unit u ++ quote_body t
  end.

Definition quote (s : jsstring) : jsstring := [34] ++ quote_body s ++ [34].

Definition number (n : Z) : jsstring :=
  lit (DecimalString.NilZero.string_of_int (Z.to_int n)).

(** [l] joined by [sep]. *)
Fixpoint join (sep : jsstring) (l : list jsstring) : jsstring :=
  match l with
  | [] => []
  | [x] => x
  | x :: l' => x ++ sep ++ join sep l'
  end.

Definition GAP : jsstring := lit "  ".
Definition NEWLINE : Z := 10.

Definition block (opening closing : Z) (indent : jsstring)
    (parts : list jsstring) : jsstring :=
  match parts with
  | [] => [opening; closing]
  | _ =>
      [opening; NEWLINE] ++ indent ++ GAP
        ++ join ([44; NEWLINE] ++ indent ++ GAP) parts
        ++ [NEWLINE] ++ indent ++ [closing]
  end.

(** [JSON.stringify(j, null, 2)] at the indentation [indent]. *)
Fixpoint stringify_at (indent : jsstring) (j : json) : jsstring :=
  match j with
  | JString s => quote s
  | JNumber n => number n
  | JArray items =>
      block 91 93 indent (map (stringify_at (indent ++ GAP)) items)
  | JObject props =>
      block 123 125 indent
        (map (fun kv : string * json =>
                quote (lit kv.1) ++ lit ": " ++ stringify_at (indent ++ GAP) kv.2)
             props)
  end.

Definition stringify (j : json) : jsstring := stringify_at [] j.

End Json.

(* ===================================================================== *)
(** ** Helpers of the source: [safe], [statEntry], [asResult] *)
(* ===================================================================== *)

Definition PATH_ESCAPES : string := "Path escapes project root".

(** [safe(rel)]: the path resolved against [ROOT]; it throws unless the
    result starts with [ROOT]. *)
Definition safe (proc : Process) (rel : jsstring) : outcome jsstring :=
  let abs := Path.resolve (cwd proc) [ROOT proc; rel] in
  if negb (startsWith abs (ROOT proc)) then Thrown (Error PATH_ESCAPES)
  else Returned abs.

(** The objects [statEntry] builds. *)
Module Entry.
Record t := {
  name : jsstring;
  type : jsstring;
  size : Z;
  mtimeMs : Z;
}.

Definition to_json (e : t) : json :=
  JObject [("name"%string, JString (name e)); ("type"%string, JString (type e));
           ("size"%string, JNumber (size e));
           ("mtimeMs"%string, JNumber (mtimeMs e))].
End Entry.

(** The [type] that [statEntry] derives from the [Stats]. *)
Definition entryType (s : Stats) : jsstring :=
  if isFile s then lit "file"
  else if isDirectory s then lit "dir"
  else lit "other".

(** [statEntry(abs)]. *)
Definition statEntry (abs : jsstring) : FS Entry.t :=
  s <- Fs.stat abs ;;
  ret {| Entry.name := Path.basename abs;
         Entry.type := entryType s;
         Entry.size := size s;
         Entry.mtimeMs := mtimeMs s |}.

(** The result envelope: [{ content: [{ type: 'text', text }] }]. *)
Module Content.
Record t := {
  type : jsstring;
  text : jsstring;
}.
End Content.

Record Envelope := {
  content : list Content.t;
}.

(** [asResult(x)]: a string goes through as it is, any other value is
    written with [JSON.stringify(x, null, 2)]. *)
Definition asResult (x : json) : Envelope :=
  {| content :=
       [{| Content.type := lit "text";
           Content.text := match x with
                           | JString s => s
                           | _ => Json.stringify x
                           end |}] |}.

Definition OK : Envelope := asResult (JString (lit "ok")).

(* ===================================================================== *)
(** ** The executors *)
(* ===================================================================== *)

(** The executors receive the argument object that parsing against the
    tool's shape produced.  A property that may be [undefined] there is an
    [option]; the defaults written in the destructuring patterns
    ([encoding = 'utf8'], [recursive = true], ...) apply to [None].  The
    executors that change the tree take the time [now] of the call. *)

Definition UTF8 : jsstring := lit "utf8".

Module ls.
Record Args := { path : option jsstring }.

(** The value of [detailed] in the body of [execute]. *)
Definition detailed (proc : Process) (a : Args) : FS (list Entry.t) :=
  let rel := default (lit ".") (path a) in
  abs <- lift (safe proc rel) ;;
  entries <- Fs.readdir abs ;;
  mapM (fun n => statEntry (Path.join abs n)) entries.

Definition execute (proc : Process) (a : Args) : FS Envelope :=
  detailed <- detailed proc a ;;
  ret (asResult (JArray (map Entry.to_json detailed))).
End ls.

Module readFile.
Record Args := { path : jsstring; encoding : option jsstring }.

Definition execute (proc : Process) (a : Args) : FS Envelope :=
  let encoding := default UTF8 (encoding a) in
  abs <- lift (safe proc (path a)) ;;
  buf <- Fs.readFile abs ;;
  ret (asResult (JString (if str_eqb encoding UTF8
                          then Utf8.decode buf
                          else Base64.encode buf))).
End readFile.

Module writeFile.
Record Args := {
  path : jsstring;
  data : jsstring;
  encoding : option jsstring;
  append : option bool;
}.

(** In both variants [data] is a string when the executor runs: the
    plain shape requires it, the alias-friendly one defaults it to [''],
    in the shape and again in the destructuring pattern.  [append] is
    tested for truth, so [undefined] and [false] both overwrite. *)
Definition execute (proc : Process) (now : Z) (a : Args) : FS Envelope :=
  let encoding := default UTF8 (encoding a) in
  let buf := if str_eqb encoding UTF8
             then Utf8.encode (data a)
             else Base64.decode (data a) in
  abs <- lift (safe proc (path a)) ;;
  Fs.writeFile now abs buf (default false (append a)) ;;;
  ret OK.
End writeFile.

Module mkdir.
Record Args := { path : jsstring; recursive : option bool }.

Definition execute (proc : Process) (now : Z) (a : Args) : FS Envelope :=
  let recursive := default true (recursive a) in
  abs <- lift (safe proc (path a)) ;;
  Fs.mkdir now abs recursive ;;;
  ret OK.
End mkdir.

Module rename.
Record Args := { from : jsstring; to : jsstring }.

Definition execute (proc : Process) (now : Z) (a : Args) : FS Envelope :=
  src <- lift (safe proc (from a)) ;;
  dst <- lift (safe proc (to a)) ;;
  Fs.rename now src dst ;;;
  ret OK.
End rename.

Module rm.
Record Args := { path : jsstring; recursive : option bool }.

Definition execute (proc : Process) (now : Z) (a : Args) : FS Envelope :=
  let recursive := default false (recursive a) in
  abs <- lift (safe proc (path a)) ;;
  s <- Fs.stat abs ;;
  (if isDirectory s then Fs.rm now abs recursive else Fs.unlink now abs) ;;;
  ret OK.
End rm.

(** A call of one of the six tools of [fsSpec.tools]. *)
Inductive call :=
  | Ls (a : ls.Args)
  | ReadFile (a : readFile.Args)
  | WriteFile (a : writeFile.Args)
  | Mkdir (a : mkdir.Args)
  | Rename (a : rename.Args)
  | Rm (a : rm.Args).

Definition execute (proc : Process) (now : Z) (c : call) : FS Envelope :=
  match c with
  | Ls a => ls.execute proc a
  | ReadFile a => readFile.execute proc a
  | WriteFile a => writeFile.execute proc now a
  | Mkdir a => mkdir.execute proc now a
  | Rename a => rename.execute proc now a
  | Rm a => rm.execute proc now a
  end.

(* ===================================================================== *)
(** ** [zod]: the schemas the shapes are built from *)
(* ===================================================================== *)

(** A raw JavaScript value, as it arrives in an argument object. *)
Inductive jsval :=
  | VUndefined
  | VNull
  | VString (s : jsstring)
  | VBoolean (b : bool)
  | VNumber (n : Z).

(** A raw argument object; a property that is absent reads as
    [undefined]. *)
Abbreviation rawArgs := (gmap string jsval).

Definition prop (o : rawArgs) (k : string) : jsval := default VUndefined (o !! k).

Module z.

(** A schema parses a raw value into an [A], or reports an issue
    ([None]). *)
Definition Schema (A : Type) : Type := jsval -> option A.

Definition string : Schema jsstring := fun v =>
  match v with VString s => Some s | _ => None end.

Definition boolean : Schema bool := fun v =>
  match v with VBoolean b => Some b | _ => None end.

(** [z.enum([...])]: one of the listed strings. *)
Definition enum (options : list String.string) : Schema jsstring := fun v =>
  match v with
  | VString s => if existsb (fun o => str_eqb s (lit o)) options then Some s else None
  | _ => None
  end.

(** [schema.default(d)]: [undefined] is replaced by [d] before the inner
    schema parses. *)
Definition default {A} (d : jsval) (schema : Schema A) : Schema A := fun v =>
  match v with VUndefined => schema d | _ => schema v end.

(** [schema.optional()]: [undefined] is let through as it is. *)
Definition optional {A} (schema : Schema A) : Schema (option A) := fun v =>
  match v with VUndefined => Some None | _ => Some <$> schema v end.

(** [schema.transform(f)]. *)
Definition transform {A B} (f : A -> B) (schema : Schema A) : Schema B :=
  fun v => f <$> schema v.

(** [schema.describe(text)] only attaches a description. *)
Definition describe {A} (text : String.string) (schema : Schema A) : Schema A :=
  schema.

End z.

(** Sequencing of the properties of a shape. *)
Notation "'let*' x := c 'in' k" :=
  (match c with Some x => k | None => None end)
  (at level 10, x name, c at level 100, k at level 200).

(* ===================================================================== *)
(** ** The parameter shapes of the plain variant *)
(* ===================================================================== *)

(** A shape is given by what parsing an argument object against it
    produces. *)
Module FsSpec.

Definition LsShape (o : rawArgs) : option ls.Args :=
  let* path :=
    z.describe "Directory to list, relative to project root."
      (z.default (VString (lit ".")) z.string) (prop o "path") in
  Some {| ls.path := Some path |}.

Definition ReadFileShape (o : rawArgs) : option readFile.Args :=
  let* path :=
    z.describe "File path, relative to project root." z.string (prop o "path") in
  let* encoding :=
    z.describe "Decoding for file contents."
      (z.default (VString (lit "utf8")) (z.enum ["utf8"; "base64"]%string))
      (prop o "encoding") in
  Some {| readFile.path := path; readFile.encoding := Some encoding |}.

Definition WriteFileShape (o : rawArgs) : option writeFile.Args :=
  let* path := z.describe "Target file path." z.string (prop o "path") in
  let* data :=
    z.describe "Raw text or base64-encoded bytes." z.string (prop o "data") in
  let* encoding :=
    z.describe "Interpretation of “data”."
      (z.default (VString (lit "utf8")) (z.enum ["utf8"; "base64"]%string))
      (prop o "encoding") in
  let* append :=
    z.describe "If true, append instead of overwrite."
      (z.optional z.boolean) (prop o "append") in
  Some {| writeFile.path := path; writeFile.data := data;
          writeFile.encoding := Some encoding; writeFile.append := append |}.

Definition MkdirShape (o : rawArgs) : option mkdir.Args :=
  let* path := z.describe "Directory path to create." z.string (prop o "path") in
  let* recursive :=
    z.describe "Create parent folders as needed."
      (z.default (VBoolean true) z.boolean) (prop o "recursive") in
  Some {| mkdir.path := path; mkdir.recursive := Some recursive |}.

Definition RenameShape (o : rawArgs) : option rename.Args :=
  let* from := z.describe "Original path." z.string (prop o "from") in
  let* to := z.describe "New path / filename." z.string (prop o "to") in
  Some {| rename.from := from; rename.to := to |}.

Definition RmShape (o : rawArgs) : option rm.Args :=
  let* path := z.describe "Path to remove." z.string (prop o "path") in
  let* recursive :=
    z.describe "If true and a directory, remove recursively."
      (z.default (VBoolean false) z.boolean) (prop o "recursive") in
  Some {| rm.path := path; rm.recursive := Some recursive |}.

End FsSpec.

(* ===================================================================== *)
(** ** The parameter shapes of the alias-friendly variant *)
(* ===================================================================== *)

Module FsMcp.

(** The common scalar [Encoding]: [utf-8] is accepted and turned into
    [utf8]. *)
Definition Encoding : z.Schema jsstring :=
  z.default (VString (lit "utf8"))
    (z.transform (fun e => if str_eqb e (lit "utf-8") then lit "utf8" else e)
       (z.enum ["utf8"; "utf-8"; "base64"]%string)).

Definition Ls (o : rawArgs) : option ls.Args :=
  let* path :=
    z.describe "Directory to list - project-root-relative."
      (z.default (VString (lit ".")) z.string) (prop o "path") in
  Some {| ls.path := Some path |}.

Definition Read (o : rawArgs) : option readFile.Args :=
  let* path := z.describe "File path." z.string (prop o "path") in
  let* encoding :=
    z.optional (z.describe "utf8 | base64 (utf-8 alias accepted)." Encoding)
      (prop o "encoding") in
  Some {| readFile.path := path; readFile.encoding := encoding |}.

Definition Write (o : rawArgs) : option writeFile.Args :=
  let* path := z.describe "Target file path." z.string (prop o "path") in
  let* data :=
    z.describe "String / base64 payload."
      (z.default (VString []) z.string) (prop o "data") in
  let* encoding := z.optional Encoding (prop o "encoding") in
  let* append :=
    z.optional (z.describe "true → append, false → overwrite"
                  (z.default (VBoolean false) z.boolean))
      (prop o "append") in
  Some {| writeFile.path := path; writeFile.data := data;
          writeFile.encoding := encoding; writeFile.append := append |}.

Definition Mkdir (o : rawArgs) : option mkdir.Args :=
  let* path := z.describe "Directory to create." z.string (prop o "path") in
  let* recursive :=
    z.optional (z.describe "Create parent dirs."
                  (z.default (VBoolean true) z.boolean))
      (prop o "recursive") in
  Some {| mkdir.path := path; mkdir.recursive := recursive |}.

Definition Rename (o : rawArgs) : option rename.Args :=
  let* from := z.describe "Source." z.string (prop o "from") in
  let* to := z.describe "Destination / new name." z.string (prop o "to") in
  Some {| rename.from := from; rename.to := to |}.

Definition Remove (o : rawArgs) : option rm.Args :=
  let* path := z.describe "File/dir to delete." z.string (prop o "path") in
  let* recursive :=
    z.optional (z.describe "Recursive if dir."
                  (z.default (VBoolean false) z.boolean))
      (prop o "recursive") in
  Some {| rm.path := path; rm.recursive := recursive |}.

End FsMcp.

(* ===================================================================== *)
(** ** The caller of the tools *)
(* ===================================================================== *)

(** Modelled from the spec: the dispatcher that receives a tool name and a
    raw argument object is not part of the source file.  Following
    sections 2 and 4.5 of the specification it parses the raw arguments
    against the tool's shape and, when they parse, runs the executor on the
    result; arguments that do not parse never reach the executor. *)
Definition invoke {A} (shape : rawArgs -> option A)
    (run : A -> FS Envelope) (o : rawArgs) : FS Envelope :=
  match shape o with
  | Some a => run a
  | None => throw ZodError
  end.

(** Modelled from the spec: the error kinds of section 7 of the
    specification.  The source has no such classification; this is the
    reading of the errors it lets through. *)
Inductive Kind :=
  | PathEscape | InvalidArgument | NotFound | NotADirectory | IsADirectory
  | AlreadyExists | NotEmpty | CrossDevice | UnknownTool | Unexpected.

Definition kind_of (e : error) : Kind :=
  match e with
  | Error m => if String.eqb m PATH_ESCAPES then PathEscape else Unexpected
  | ZodError => InvalidArgument
  | FsError ENOENT => NotFound
  | FsError ENOTDIR => NotADirectory
  | FsError EISDIR => IsADirectory
  | FsError ERR_FS_EISDIR => IsADirectory
  | FsError EEXIST => AlreadyExists
  | FsError ENOTEMPTY => NotEmpty
  | FsError EINVAL => Unexpected
  | FsError EBUSY => Unexpected
  | FsError ENAMETOOLONG => Unexpected
  | FsError ERR_INVALID_ARG_VALUE => InvalidArgument
  end.

(* ===================================================================== *)
(** ** Vocabulary of the statements *)
(* ===================================================================== *)

(** [c] leaves the tree as it found it, whatever its outcome. *)
Definition read_only {A} (c : FS A) : Prop := forall fs, (c fs).2 = fs.

(** A string is inside the root when it is the root or the root followed by
    the separator and more. *)
Definition inside (root abs : jsstring) : bool :=
  str_eqb abs root || startsWith abs (root ++ [CHAR_FORWARD_SLASH]).

(** The errors of [safe] and of [node:fs]. *)
Definition platform_error (e : error) : Prop :=
  e = Error PATH_ESCAPES \/ exists code, e = FsError code.

(** [c] throws nothing but errors of [safe] and of [node:fs]. *)
Definition throws_platform {A} (c : FS A) : Prop :=
  forall fs e, (c fs).1 = Thrown e -> platform_error e.

(** An executor that returns, returns what [asResult] built. *)
Definition returns_result (c : FS Envelope) : Prop :=
  forall fs env, (c fs).1 = Returned env -> exists x, env = asResult x.

(** What a write at [p] continues: the content of the regular file at [p]
    when appending, and nothing otherwise. *)
Definition kept (fs : FileSystem) (p : jsstring) (append : bool) : Buffer :=
  match fs !! Fs.key p with
  | Some (File c _) => if append then c else []
  | _ => []
  end.

(** The first path argument of a call. *)
Definition first_path (c : call) : jsstring :=
  match c with
  | Ls a => default (lit ".") (ls.path a)
  | ReadFile a => readFile.path a
  | WriteFile a => writeFile.path a
  | Mkdir a => mkdir.path a
  | Rename a => rename.from a
  | Rm a => rm.path a
  end.

(* ===================================================================== *)
(** ** Example data *)
(* ===================================================================== *)

(** A process started in [/srv/app] with [FS_ROOT] unset. *)
Definition app_process : Process :=
  {| cwd := lit "/srv/app"; FS_ROOT := None |}.

(** The tree [/srv/app/docs/note.txt], next to [/srv/app2/secret.txt]. *)
Definition app_tree : FileSystem :=
  <[ [lit "srv"; lit "app"; lit "docs"; lit "note.txt"] := File (lit "note") 4 ]>
  (<[ [lit "srv"; lit "app"; lit "docs"] := Dir 4 ]>
  (<[ [lit "srv"; lit "app2"; lit "secret.txt"] := File (lit "hi") 3 ]>
  (<[ [lit "srv"; lit "app2"] := Dir 3 ]>
  (<[ [lit "srv"; lit "app"] := Dir 4 ]>
  (<[ [lit "srv"] := Dir 2 ]>
  {[ [] := Dir 1 ]}))))).

(** A name of 300 bytes, and a name with a NUL character in it. *)
Definition long_name : jsstring := repeat 110 300%nat.
Definition nul_name : jsstring := [97; 0; 98].

(** The escaping path [../../etc/passwd]. *)
Definition escaping_call : call :=
  ReadFile {| readFile.path := lit "../../etc/passwd";
              readFile.encoding := None |}.

(** The raw arguments [{ path: 'a.txt', encoding: 'utf-8' }]. *)
Definition alias_args : rawArgs :=
  {[ "path"%string := VString (lit "a.txt");
     "encoding"%string := VString (lit "utf-8") ]}.

(** The text of an envelope. *)
Definition text_of (e : Envelope) : jsstring :=
  match content e with
  | [c] => Content.text c
  | _ => []
  end.

(** The scenario of section 8 of the specification: make [a/b], write
    [a/b/f.txt], list, read, rename to [g.txt], list again, remove [a].
    It returns the texts of the two listings and of the read. *)
Definition scenario (proc : Process) : FS (jsstring * jsstring * jsstring) :=
  mkdir.execute proc 1
    {| mkdir.path := lit "a/b"; mkdir.recursive := Some true |} ;;;
  writeFile.execute proc 2
    {| writeFile.path := lit "a/b/f.txt"; writeFile.data := lit "hello";
       writeFile.encoding := Some (lit "utf8"); writeFile.append := None |} ;;;
  l1 <- ls.execute proc {| ls.path := Some (lit "a/b") |} ;;
  r <- readFile.execute proc
         {| readFile.path := lit "a/b/f.txt";
            readFile.encoding := Some (lit "utf8") |} ;;
  rename.execute proc 3
    {| rename.from := lit "a/b/f.txt"; rename.to := lit "a/b/g.txt" |} ;;;
  l2 <- ls.execute proc {| ls.path := Some (lit "a/b") |} ;;
  rm.execute proc 4 {| rm.path := lit "a"; rm.recursive := Some true |} ;;;
  ret (text_of l1, text_of r, text_of l2).

(** The listing of a single regular file of five bytes written at time 2. *)
Definition listing_of (name : jsstring) : jsstring :=
  Json.stringify
    (JArray [Entry.to_json {| Entry.name := name; Entry.type := lit "file";
                              Entry.size := 5; Entry.mtimeMs := 2 |}]).

(* ===================================================================== *)
(** ** Names and canonical paths *)
(* ===================================================================== *)

(** [s] holds no separator. *)
Definition no_slash (s : jsstring) : bool :=
  forallb (fun c => negb (c =? CHAR_FORWARD_SLASH)) s.

(** A name of a directory entry: not empty, without separator, and neither
    [.] nor [..]. *)
Definition valid_name (s : jsstring) : bool :=
  negb (match s with [] => true | _ => false end)
  && no_slash s && negb (Path.is_dot s) && negb (Path.is_dotdot s).

(** The absolute path with the pieces [ks]. *)
Definition path_of (ks : list jsstring) : jsstring :=
  CHAR_FORWARD_SLASH :: Path.join_segs ks.

(** A canonical path: absolute, made of valid names joined by single
    separators, with no separator at the end. *)
Definition canonical (p : jsstring) : Prop :=
  p = path_of (Fs.key p) /\ forallb valid_name (Fs.key p) = true.

(** The path arguments of a call, in the order in which the executor
    passes them to [safe]. *)
Definition paths (c : call) : list jsstring :=
  match c with
  | Rename a => [rename.from a; rename.to a]
  | _ => [first_path c]
  end.

(** What [mkdir] keeps: regular files as they are, directories as
    directories. *)
Definition keeps (fs fs1 : FileSystem) : Prop :=
  (forall k c t, fs !! k = Some (File c t) -> fs1 !! k = Some (File c t))
  /\ (forall k, Fs.is_dir fs k = true -> Fs.is_dir fs1 k = true).


(* ===================================================================== *)
(** ** The tool sets [fsSpec.tools] *)
(* ===================================================================== *)

(** A tool of [fsSpec.tools]: [{ name, description, parameters, execute }].
    [parameters] is the shape, given by what parsing against it produces;
    the executors that do not change the tree ignore the time of the
    call. *)
Module Tool.
Record t := {
  name : string;
  description : string;
  Args : Type;
  parameters : rawArgs -> option Args;
  execute : Process -> Z -> Args -> FS Envelope;
}.

(** A call of the tool with raw arguments, through [invoke]. *)
Definition run (tool : t) (proc : Process) (now : Z) (o : rawArgs)
  : FS Envelope :=
  invoke (parameters tool) (execute tool proc now) o.
End Tool.

(** [fsSpec.tools] of the plain variant. *)
Definition FsSpec_tools : list Tool.t :=
  [ {| Tool.name := "ls";
       Tool.description := "List files / directories in a path.";
       Tool.parameters := FsSpec.LsShape;
       Tool.execute := fun proc _ => ls.execute proc |};
    {| Tool.name := "readFile";
       Tool.description := "Read a text or binary file.";
       Tool.parameters := FsSpec.ReadFileShape;
       Tool.execute := fun proc _ => readFile.execute proc |};
    {| Tool.name := "writeFile";
       Tool.description := "Write (or append) data to a file.";
       Tool.parameters := FsSpec.WriteFileShape;
       Tool.execute := writeFile.execute |};
    {| Tool.name := "mkdir";
       Tool.description := "Create a directory.";
       Tool.parameters := FsSpec.MkdirShape;
       Tool.execute := mkdir.execute |};
    {| Tool.name := "rename";
       Tool.description := "Move or rename a file/directory.";
       Tool.parameters := FsSpec.RenameShape;
       Tool.execute := rename.execute |};
    {| Tool.name := "rm";
       Tool.description := "Delete a file or directory.";
       Tool.parameters := FsSpec.RmShape;
       Tool.execute := rm.execute |} ].

(** [fsSpec.tools] of the alias-friendly variant. *)
Definition FsMcp_tools : list Tool.t :=
  [ {| Tool.name := "ls";
       Tool.description := "List directory contents.";
       Tool.parameters := FsMcp.Ls;
       Tool.execute := fun proc _ => ls.execute proc |};
    {| Tool.name := "readFile";
       Tool.description := "Read file – utf8 or base64.";
       Tool.parameters := FsMcp.Read;
       Tool.execute := fun proc _ => readFile.execute proc |};
    {| Tool.name := "writeFile";
       Tool.description := "Write / append data to file.";
       Tool.parameters := FsMcp.Write;
       Tool.execute := writeFile.execute |};
    {| Tool.name := "mkdir";
       Tool.description := "Create directory.";
       Tool.parameters := FsMcp.Mkdir;
       Tool.execute := mkdir.execute |};
    {| Tool.name := "rename";
       Tool.description := "Move / rename file or dir.";
       Tool.parameters := FsMcp.Rename;
       Tool.execute := rename.execute |};
    {| Tool.name := "rm";
       Tool.description := "Delete file or dir.";
       Tool.parameters := FsMcp.Remove;
       Tool.execute := rm.execute |} ].

(** The encoding an executor works with: [utf8] when the argument is
    [undefined]. *)
Definition effective_encoding (e : option jsstring) : jsstring := default UTF8 e.

(** Every node of the tree has all its ancestors in the tree. *)
Definition rooted (fs : FileSystem) : bool :=
  forallb (fun kn : list jsstring * node =>
             forallb (fun i => bool_decide (is_Some (fs !! take i kn.1)))
               (seq 0 (length kn.1)))
    (map_to_list fs).

(** [c] changes nothing when it throws. *)
Definition fails_clean {A} (c : FS A) (fs : FileSystem) : Prop :=
  forall e, (c fs).1 = Thrown e -> (c fs).2 = fs.

(* ===================================================================== *)
(** * Properties *)
(* ===================================================================== *)

(** The model runs the scenario of the specification as the specification
    tells it: the listings show [f.txt], then [g.txt], the read returns
    [hello], and listing [a] after its removal throws [ENOENT]. *)
Example scenario_runs :
  (scenario app_process app_tree).1
  = Returned (listing_of (lit "f.txt"), lit "hello", listing_of (lit "g.txt"))
  /\ ((scenario app_process ;;;
       ls.execute app_process {| ls.path := Some (lit "a") |}) app_tree).1
     = Thrown (FsError ENOENT).
Proof. split; vm_compute; reflexivity. Qed.

(* ===================================================================== *)
(** ** Computations that only read, computations that only throw the
       errors of [safe] and [node:fs] *)
(* ===================================================================== *)

Lemma read_only_outcome {A} (c : FS A) (fs : FileSystem) (o : outcome A) :
  read_only c -> (c fs).1 = o -> c fs = (o, fs).
Proof.
  intros Hc Ho. specialize (Hc fs). destruct (c fs) as [o' fs'].
  cbn in *. now subst.
Qed.

Lemma read_only_ret {A} (a : A) : read_only (ret a).
Proof. intros fs. reflexivity. Qed.

Lemma read_only_throw {A} (e : error) : read_only (throw (A := A) e).
Proof. intros fs. reflexivity. Qed.

Lemma read_only_lift {A} (o : outcome A) : read_only (lift o).
Proof. destruct o; intros fs; reflexivity. Qed.

Lemma read_only_bind {A B} (c : FS A) (k : A -> FS B) :
  read_only c -> (forall a, read_only (k a)) -> read_only (bind c k).
Proof.
  intros Hc Hk fs. unfold bind. specialize (Hc fs).
  destruct (c fs) as [[a|e] fs']; cbn in Hc; subst fs'; [apply Hk | reflexivity].
Qed.

Lemma read_only_mapM {A B} (f : A -> FS B) (xs : list A) :
  (forall x, read_only (f x)) -> read_only (mapM f xs).
Proof.
  intros Hf. induction xs as [|x xs IH]; cbn [mapM].
  - apply read_only_ret.
  - apply read_only_bind; [apply Hf|]. intros y.
    apply read_only_bind; [apply IH|]. intros ys. apply read_only_ret.
Qed.

Lemma read_only_stat (p : jsstring) : read_only (Fs.stat p).
Proof. intros fs. unfold Fs.stat. now destruct (fs !! Fs.key p). Qed.

Lemma read_only_readdir (p : jsstring) : read_only (Fs.readdir p).
Proof. intros fs. unfold Fs.readdir. now destruct (fs !! Fs.key p) as [[]|]. Qed.

Lemma read_only_readFile (p : jsstring) : read_only (Fs.readFile p).
Proof. intros fs. unfold Fs.readFile. now destruct (fs !! Fs.key p) as [[]|]. Qed.

Lemma read_only_statEntry (p : jsstring) : read_only (statEntry p).
Proof.
  apply read_only_bind; [apply read_only_stat|]. intros s. apply read_only_ret.
Qed.

Create HintDb fs_read discriminated.
#[local] Hint Resolve read_only_ret read_only_throw read_only_lift
  read_only_stat read_only_readdir read_only_readFile read_only_statEntry
  : fs_read.

Ltac read_only_steps :=
  repeat first
    [ progress eauto with fs_read
    | apply read_only_mapM; intros ?
    | apply read_only_bind; [| intros ?] ].

Lemma read_only_ls_detailed (proc : Process) (a : ls.Args) : read_only (ls.detailed proc a).
Proof. unfold ls.detailed. read_only_steps. Qed.

(** ** What [safe] returns *)

Lemma safe_cases (proc : Process) (rel : jsstring) :
  let abs := Path.resolve (cwd proc) [ROOT proc; rel] in
  (startsWith abs (ROOT proc) = true /\ safe proc rel = Returned abs)
  \/ (startsWith abs (ROOT proc) = false
      /\ safe proc rel = Thrown (Error PATH_ESCAPES)).
Proof.
  cbn zeta. unfold safe.
  destruct (startsWith _ (ROOT proc)); [left | right]; split; reflexivity.
Qed.

Lemma safe_returned (proc : Process) (rel abs : jsstring) :
  safe proc rel = Returned abs ->
  abs = Path.resolve (cwd proc) [ROOT proc; rel]
  /\ startsWith abs (ROOT proc) = true.
Proof.
  destruct (safe_cases proc rel) as [[H1 H2]|[H1 H2]]; rewrite H2; intros H.
  - injection H as <-. now split.
  - discriminate.
Qed.

Lemma safe_thrown (proc : Process) (rel : jsstring) (e : error) :
  safe proc rel = Thrown e -> e = Error PATH_ESCAPES.
Proof.
  destruct (safe_cases proc rel) as [[H1 H2]|[H1 H2]]; rewrite H2; intros H.
  - discriminate.
  - now injection H.
Qed.


(* ===================================================================== *)
(** ** Confinement to the root *)
(* ===================================================================== *)

(** What [safe] guarantees for every argument: it returns the resolved path
    when that path has [ROOT] as a string prefix and throws otherwise. *)
Lemma safe_prefix (proc : Process) (rel : jsstring) :
  match safe proc rel with
  | Returned abs => startsWith abs (ROOT proc) = true
  | Thrown e => e = Error PATH_ESCAPES
  end.
Proof.
  destruct (safe_cases proc rel) as [[H1 H2]|[H1 H2]]; rewrite H2; auto.
Qed.

(** A path inside the root is accepted. *)
Lemma inside_startsWith root abs :
  inside root abs = true -> startsWith abs root = true.
Proof.
  unfold inside. revert abs. induction root as [|c root IH]; intros abs H.
  - now destruct abs.
  - destruct abs as [|d abs]; [discriminate|]. cbn in *.
    destruct (d =? c) eqn:E.
    + apply Z.eqb_eq in E as ->. rewrite Z.eqb_refl in *. cbn in *.
      apply IH. exact H.
    + cbn in H. rewrite Z.eqb_sym, E in H. discriminate.
Qed.

(** C1: for the root [/srv/app], [safe] returns the path
    [/srv/app2/secret.txt] for the argument [../app2/secret.txt]: a path in
    the sibling directory [/srv/app2], which is neither the root nor a
    string that starts with the root and the separator. *)
Theorem safe_accepts_sibling_of_root :
  ROOT app_process = lit "/srv/app"
  /\ safe app_process (lit "../app2/secret.txt")
     = Returned (lit "/srv/app2/secret.txt")
  /\ inside (ROOT app_process) (lit "/srv/app2/secret.txt") = false.
Proof. repeat split; reflexivity. Qed.

(** When [safe] throws, [readFile] throws the same error and the tree is
    not consulted: the outcome is the same for every tree. *)
Lemma readFile_rejected (proc : Process) (a : readFile.Args) (e : error)
    (fs : FileSystem) :
  safe proc (readFile.path a) = Thrown e ->
  readFile.execute proc a fs = (Thrown e, fs).
Proof. intros H. unfold readFile.execute, bind. rewrite H. reflexivity. Qed.

(** C2: for the root [/srv/app], [readFile] of [../app2/secret.txt] does
    not fail: it returns the content of [/srv/app2/secret.txt], a file
    outside the root. *)
Theorem readFile_reads_sibling_of_root :
  inside (ROOT app_process)
    (Path.resolve (cwd app_process) [ROOT app_process; lit "../app2/secret.txt"])
  = false
  /\ readFile.execute app_process
       {| readFile.path := lit "../app2/secret.txt";
          readFile.encoding := Some (lit "utf8") |} app_tree
     = (Returned (asResult (JString (lit "hi"))), app_tree).
Proof. split; reflexivity. Qed.

(* ===================================================================== *)
(** ** Reading leaves the tree alone *)
(* ===================================================================== *)

Lemma read_only_readFile_execute (proc : Process) (a : readFile.Args) :
  read_only (readFile.execute proc a).
Proof. unfold readFile.execute. read_only_steps. Qed.

Lemma read_only_ls_execute (proc : Process) (a : ls.Args) :
  read_only (ls.execute proc a).
Proof.
  unfold ls.execute. apply read_only_bind; [apply read_only_ls_detailed|].
  intros d. apply read_only_ret.
Qed.

(** C10: [readFile] and [ls] leave the file tree as they found it, for
    every argument and every tree, whether they return or throw. *)
Theorem readFile_ls_read_only (proc : Process) (r : readFile.Args)
    (l : ls.Args) (fs : FileSystem) :
  (readFile.execute proc r fs).2 = fs /\ (ls.execute proc l fs).2 = fs.
Proof.
  split; [apply read_only_readFile_execute | apply read_only_ls_execute].
Qed.

(* ===================================================================== *)
(** ** Errors leave the executors as they were thrown *)
(* ===================================================================== *)

Lemma throws_platform_ret {A} (a : A) : throws_platform (ret a).
Proof. intros fs e H. discriminate. Qed.

Lemma throws_platform_lift_safe (proc : Process) (rel : jsstring) : throws_platform (lift (safe proc rel)).
Proof.
  intros fs e. pose proof (safe_prefix proc rel) as H.
  destruct (safe proc rel); cbn; intros [= <-]. now left.
Qed.

Lemma throws_platform_bind {A B} (c : FS A) (k : A -> FS B) :
  throws_platform c -> (forall a, throws_platform (k a)) -> throws_platform (bind c k).
Proof.
  intros Hc Hk fs e. unfold bind. specialize (Hc fs).
  destruct (c fs) as [[a|e'] fs']; cbn in *.
  - apply Hk.
  - intros [= <-]. now apply Hc.
Qed.

Lemma throws_platform_mapM {A B} (f : A -> FS B) (xs : list A) :
  (forall x, throws_platform (f x)) -> throws_platform (mapM f xs).
Proof.
  intros Hf. induction xs as [|x xs IH]; cbn [mapM].
  - apply throws_platform_ret.
  - apply throws_platform_bind; [apply Hf|]. intros y.
    apply throws_platform_bind; [apply IH|]. intros ys. apply throws_platform_ret.
Qed.

Ltac fs_error := right; eexists; reflexivity.

Ltac fs_cases :=
  repeat match goal with
    | |- context [match ?x with _ => _ end] => destruct x
    end.

(** Every error of a primitive of [node:fs] is an [FsError]. *)
Ltac throws_fs_error :=
  intros ? ?; fs_cases; cbn; intros [= <-]; fs_error.

Lemma throws_platform_stat (p : jsstring) : throws_platform (Fs.stat p).
Proof. unfold Fs.stat, Fs.missing. throws_fs_error. Qed.

Lemma throws_platform_readdir (p : jsstring) : throws_platform (Fs.readdir p).
Proof. unfold Fs.readdir, Fs.missing. throws_fs_error. Qed.

Lemma throws_platform_readFile (p : jsstring) : throws_platform (Fs.readFile p).
Proof. unfold Fs.readFile, Fs.missing. throws_fs_error. Qed.

Lemma throws_platform_writeFile (now : Z) (p : jsstring) (buf : Buffer)
    (app : bool) :
  throws_platform (Fs.writeFile now p buf app).
Proof. unfold Fs.writeFile, Fs.missing. throws_fs_error. Qed.

Lemma mkdirp_platform_error (now : Z) (rest : list jsstring) :
  forall (pre : list jsstring) (fs : FileSystem) (e : error),
    (Fs.mkdirp now pre rest fs).1 = Thrown e -> platform_error e.
Proof.
  induction rest as [|s rest IH]; intros pre fs e; cbn [Fs.mkdirp].
  - discriminate.
  - destruct (fs !! (pre ++ [s])) as [[]|]; [| apply IH |].
    + cbn. intros [= <-]. fs_error.
    + destruct (Fs.fits s); [apply IH|]. cbn. intros [= <-]. fs_error.
Qed.

Lemma throws_platform_mkdir (now : Z) (p : jsstring) (r : bool) :
  throws_platform (Fs.mkdir now p r).
Proof.
  intros fs e. unfold Fs.mkdir, Fs.missing. destruct r.
  - destruct (fs !! Fs.key p); [apply mkdirp_platform_error|].
    destruct (Fs.first_error _); [|apply mkdirp_platform_error].
    cbn. intros [= <-]. fs_error.
  - revert fs e. throws_fs_error.
Qed.

Lemma throws_platform_unlink (now : Z) (p : jsstring) :
  throws_platform (Fs.unlink now p).
Proof. unfold Fs.unlink, Fs.missing. throws_fs_error. Qed.

Lemma throws_platform_rm (now : Z) (p : jsstring) (r : bool) :
  throws_platform (Fs.rm now p r).
Proof. unfold Fs.rm. throws_fs_error. Qed.

Lemma throws_platform_rename (now : Z) (p q : jsstring) :
  throws_platform (Fs.rename now p q).
Proof. unfold Fs.rename. throws_fs_error. Qed.

Lemma throws_platform_statEntry p : throws_platform (statEntry p).
Proof.
  apply throws_platform_bind; [apply throws_platform_stat|].
  intros s. apply throws_platform_ret.
Qed.

Create HintDb fs_throw discriminated.
#[local] Hint Resolve throws_platform_ret throws_platform_lift_safe
  throws_platform_stat throws_platform_readdir throws_platform_readFile
  throws_platform_writeFile throws_platform_mkdir throws_platform_unlink
  throws_platform_rm throws_platform_rename throws_platform_statEntry : fs_throw.

Ltac throws_platform_steps :=
  repeat first
    [ progress eauto with fs_throw
    | apply throws_platform_mapM; intros ?
    | apply throws_platform_bind; [| intros ?]
    | match goal with |- throws_platform (if ?b then _ else _) => destruct b end ].

Lemma throws_platform_execute (proc : Process) (now : Z) (c : call) : throws_platform (execute proc now c).
Proof.
  destruct c as [a|a|a|a|a|a]; cbn [execute];
    unfold ls.execute, ls.detailed, readFile.execute, writeFile.execute,
      mkdir.execute, rename.execute, rm.execute;
    throws_platform_steps.
Qed.

Lemma returns_result_bind {A} (c : FS A) (k : A -> FS Envelope) :
  (forall a, returns_result (k a)) -> returns_result (bind c k).
Proof.
  intros Hk fs env. unfold bind.
  destruct (c fs) as [[a|e'] fs']; cbn; [apply Hk | discriminate].
Qed.

Lemma returns_result_ret x : returns_result (ret (asResult x)).
Proof. intros fs env [= <-]. now exists x. Qed.

Lemma returns_result_execute (proc : Process) (now : Z) (c : call) : returns_result (execute proc now c).
Proof.
  destruct c as [a|a|a|a|a|a]; cbn [execute];
    unfold ls.execute, readFile.execute, writeFile.execute,
      mkdir.execute, rename.execute, rm.execute, OK;
    repeat first [ apply returns_result_ret
                 | apply returns_result_bind; intros ? ].
Qed.

Lemma execute_rejected (proc : Process) (now : Z) (c : call)
    (fs : FileSystem) (e : error) :
  safe proc (first_path c) = Thrown e ->
  execute proc now c fs = (Thrown e, fs).
Proof.
  intros H. destruct c as [a|a|a|a|a|a]; cbn [execute first_path] in *;
    unfold ls.execute, ls.detailed, readFile.execute, writeFile.execute,
      mkdir.execute, rename.execute, rm.execute, bind;
    rewrite H; reflexivity.
Qed.

(** *** Primitives that change nothing when they throw *)

Lemma fails_clean_outcome {A} (c : FS A) (fs : FileSystem) (e : error) :
  fails_clean c fs -> (c fs).1 = Thrown e -> c fs = (Thrown e, fs).
Proof.
  intros Hc He. specialize (Hc e He). destruct (c fs) as [o fs'].
  cbn in *. now subst.
Qed.

Lemma fails_clean_read_only {A} (c : FS A) (fs : FileSystem) :
  read_only c -> fails_clean c fs.
Proof. intros H e _. apply H. Qed.

Ltac fails_clean_cases :=
  intros ?; fs_cases; cbn; try reflexivity; discriminate.

Lemma fails_clean_writeFile (now : Z) (p : jsstring) (buf : Buffer) (app : bool)
    (fs : FileSystem) :
  fails_clean (Fs.writeFile now p buf app) fs.
Proof. unfold Fs.writeFile. fails_clean_cases. Qed.

Lemma fails_clean_unlink (now : Z) (p : jsstring) (fs : FileSystem) :
  fails_clean (Fs.unlink now p) fs.
Proof. unfold Fs.unlink. fails_clean_cases. Qed.

Lemma fails_clean_rm (now : Z) (p : jsstring) (r : bool) (fs : FileSystem) :
  fails_clean (Fs.rm now p r) fs.
Proof. unfold Fs.rm. fails_clean_cases. Qed.

Lemma fails_clean_rename (now : Z) (p q : jsstring) (fs : FileSystem) :
  fails_clean (Fs.rename now p q) fs.
Proof. unfold Fs.rename. fails_clean_cases. Qed.

(** Whether [fs.writeFile] throws, and what, does not depend on the bytes
    it is given. *)
Lemma writeFile_thrown_any (now : Z) (p : jsstring) (buf buf' : Buffer)
    (app : bool) (fs : FileSystem) (e : error) :
  (Fs.writeFile now p buf app fs).1 = Thrown e ->
  Fs.writeFile now p buf' app fs = (Thrown e, fs).
Proof.
  unfold Fs.writeFile.
  destruct (fs !! Fs.key p) as [[c t|t]|].
  - destruct app; [destruct buf|]; discriminate.
  - cbn. now intros [= <-].
  - destruct (Fs.creatable fs p); [discriminate|]. cbn. now intros [= <-].
Qed.



Section Utf8_round_trip.
Import Utf8.

Ltac arith := Z.div_mod_to_equations; lia.

(** Decide the comparisons of the goal, one at a time, dropping the
    branches the bounds exclude. *)
Ltac compare_step :=
  match goal with
  | |- context [?a <=? ?b] =>
      first [ replace (a <=? b) with true by (symmetry; apply Z.leb_le; arith)
            | replace (a <=? b) with false by (symmetry; apply Z.leb_gt; arith) ]
  | |- context [?a <? ?b] =>
      first [ replace (a <? b) with true by (symmetry; apply Z.ltb_lt; arith)
            | replace (a <? b) with false by (symmetry; apply Z.ltb_ge; arith) ]
  | |- context [?a =? ?b] =>
      first [ replace (a =? b) with true by (symmetry; apply Z.eqb_eq; arith)
            | replace (a =? b) with false by (symmetry; apply Z.eqb_neq; arith) ]
  end; cbn [andb orb negb].

Lemma decode_encode2 (u : Z) (rest : Buffer) :
  0x80 <= u < 0x800 ->
  decode (encode2 u ++ rest) = u :: decode rest.
Proof.
  intros Hu. unfold encode2. cbn [app decode]. unfold in_range.
  repeat compare_step. f_equal. arith.
Qed.

Lemma decode_encode3 (u : Z) (rest : Buffer) :
  0x800 <= u < 0x10000 -> is_high u = false -> is_low u = false ->
  decode (encode3 u ++ rest) = u :: decode rest.
Proof.
  intros Hu Hh Hl. unfold encode3. cbn [app decode].
  unfold is_high, is_low in *.
  assert (Hs : u < 0xD800 \/ 0xDFFF < u) by lia. clear Hh Hl.
  unfold in_range, second_lo, second_hi.
  remember (u / 4096) as q1 eqn:E1.
  remember ((u / 64) mod 64) as q2 eqn:E2.
  remember (u mod 64) as q3 eqn:E3.
  assert (Hq : u = q1 * 4096 + q2 * 64 + q3
               /\ 0 <= q1 < 16 /\ 0 <= q2 < 64 /\ 0 <= q3 < 64)
    by (subst q1 q2 q3; arith).
  clear E1 E2 E3.
  destruct (Z.eq_dec q1 0) as [E0|E0];
    [| destruct (Z.eq_dec q1 13) as [E13|E13]].
  all: repeat compare_step; f_equal; lia.
Qed.

Lemma units_pair_point (hi lo : Z) :
  0xD800 <= hi <= 0xDBFF -> 0xDC00 <= lo <= 0xDFFF ->
  units (pair_point hi lo) = [hi; lo].
Proof.
  intros Hhi Hlo. unfold units, pair_point.
  replace (_ <? 65536) with false by (symmetry; apply Z.ltb_ge; lia).
  replace (65536 + (hi - 55296) * 1024 + (lo - 56320) - 65536)
    with ((lo - 56320) + (hi - 55296) * 1024) by lia.
  rewrite Z.div_add, Z.mod_add, Z.div_small, Z.mod_small by lia.
  f_equal; [|f_equal]; lia.
Qed.

Lemma decode_encode4_point (c : Z) (rest : Buffer) :
  0x10000 <= c < 0x110000 ->
  decode (encode4 c ++ rest) = units c ++ decode rest.
Proof.
  intros Hc. unfold encode4. cbn [app decode].
  unfold in_range, second_lo, second_hi.
  remember (c / 262144) as q1 eqn:E1.
  remember ((c / 4096) mod 64) as q2 eqn:E2.
  remember ((c / 64) mod 64) as q3 eqn:E3.
  remember (c mod 64) as q4 eqn:E4.
  assert (Hq : c = q1 * 262144 + q2 * 4096 + q3 * 64 + q4
               /\ 0 <= q1 < 5 /\ 0 <= q2 < 64 /\ 0 <= q3 < 64 /\ 0 <= q4 < 64)
    by (subst q1 q2 q3 q4; arith).
  clear E1 E2 E3 E4.
  destruct (Z.eq_dec q1 0) as [E0|E0];
    [| destruct (Z.eq_dec q1 4) as [E4|E4]].
  all: repeat compare_step; do 2 f_equal; lia.
Qed.

Lemma decode_encode4 (hi lo : Z) (rest : Buffer) :
  is_high hi = true -> is_low lo = true ->
  decode (encode4 (pair_point hi lo) ++ rest) = hi :: lo :: decode rest.
Proof.
  intros Hh Hl. unfold is_high, is_low in *.
  assert (Hhi : 0xD800 <= hi <= 0xDBFF) by lia.
  assert (Hlo : 0xDC00 <= lo <= 0xDFFF) by lia. clear Hh Hl.
  rewrite decode_encode4_point by (unfold pair_point; lia).
  now rewrite units_pair_point.
Qed.

Theorem utf8_decode_encode (s : jsstring) :
  isWellFormed s = true -> decode (encode s) = s.
Proof.
  remember (length s) as n eqn:Hn.
  revert s Hn. induction n as [n IH] using lt_wf_ind. intros s Hn Hwf.
  destruct s as [|u t]; [reflexivity|].
  cbn [isWellFormed] in Hwf. cbn [encode].
  destruct (is_high u) eqn:Hh.
  - destruct t as [|v t']; [discriminate|].
    apply andb_true_iff in Hwf as [Hl Hwf].
    assert (Hu : 0xD800 <= u <= 0xDBFF) by (unfold is_high in Hh; lia).
    replace (u <? 128) with false by (symmetry; apply Z.ltb_ge; lia).
    replace (u <? 2048) with false by (symmetry; apply Z.ltb_ge; lia).
    rewrite Hl, decode_encode4 by assumption.
    do 2 f_equal. apply (IH (length t')); [cbn in Hn; lia | reflexivity | assumption].
  - repeat (apply andb_true_iff in Hwf as [Hwf ?]).
    apply negb_true_iff in Hwf.
    assert (Hu : 0 <= u < 0x10000) by lia.
    assert (Ht : decode (encode t) = t).
    { apply (IH (length t)); [cbn in Hn; lia | reflexivity | assumption]. }
    destruct (Z.ltb_spec u 128).
    { cbn [decode]. unfold in_range.
      replace (0 <=? u) with true by (symmetry; apply Z.leb_le; lia).
      replace (u <=? 127) with true by (symmetry; apply Z.leb_le; lia).
      cbn [andb]. now rewrite Ht. }
    destruct (Z.ltb_spec u 2048).
    { rewrite decode_encode2 by lia. now rewrite Ht. }
    rewrite Hwf, decode_encode3 by (assumption || lia). now rewrite Ht.
Qed.
End Utf8_round_trip.

Section Base64_round_trip.
Import Base64.

Lemma unbase64_char (v : Z) : 0 <= v < 64 -> unbase64 (char v) = Some v.
Proof.
  intros Hv.
  assert (Hn : exists n : nat, v = Z.of_nat n /\ (n < 64)%nat).
  { exists (Z.to_nat v). lia. }
  destruct Hn as (n & -> & Hn).
  do 64 (destruct n as [|n]; [vm_compute; reflexivity|]).
  lia.
Qed.

Lemma unbase64_PAD : unbase64 PAD = None.
Proof. reflexivity. Qed.

Ltac arith := Z.div_mod_to_equations; lia.

Theorem base64_decode_encode (bs : Buffer) :
  Forall byte bs -> decode (encode bs) = bs.
Proof.
  unfold decode.
  remember (length bs) as n eqn:Hn.
  revert bs Hn. induction n as [n IH] using lt_wf_ind. intros bs Hn Hbs.
  destruct bs as [|a [|b [|c t]]]; [reflexivity| | |].
  - apply Forall_cons in Hbs as [Ha _]. unfold byte in Ha.
    cbn [encode sextets].
    rewrite !unbase64_char by arith. cbn [sextets].
    rewrite unbase64_PAD. cbn. f_equal. arith.
  - apply Forall_cons in Hbs as [Ha Hbs]. apply Forall_cons in Hbs as [Hb _].
    unfold byte in *. cbn [encode sextets].
    rewrite !unbase64_char by arith. cbn [sextets].
    rewrite unbase64_PAD. cbn. f_equal; [arith|]. f_equal. arith.
  - apply Forall_cons in Hbs as [Ha Hbs]. apply Forall_cons in Hbs as [Hb Hbs].
    apply Forall_cons in Hbs as [Hc Hbs].
    unfold byte in *. cbn [encode sextets app].
    rewrite !unbase64_char by arith. cbn [sextets pack app].
    rewrite (IH (length t)); [| cbn in Hn; lia | reflexivity | assumption].
    f_equal; [arith|]. f_equal; [arith|]. f_equal. arith.
Qed.

(** A character outside the alphabet, other than the padding, does not
    change what is decoded. *)
Lemma sextets_skip (s1 s2 : jsstring) (c : Z) :
  unbase64 c = None -> lowByte c <> PAD ->
  sextets (s1 ++ c :: s2) = sextets (s1 ++ s2).
Proof.
  intros Hc Hp. induction s1 as [|d s1 IH]; cbn [app sextets].
  - rewrite Hc.
    now replace (lowByte c =? PAD) with false
      by (symmetry; apply Z.eqb_neq; exact Hp).
  - rewrite IH. reflexivity.
Qed.

(** A code unit whose low byte is the padding has no value. *)
Lemma unbase64_lowByte_PAD (c : Z) : lowByte c = PAD -> unbase64 c = None.
Proof. unfold unbase64. intros ->. reflexivity. Qed.

(** The first code unit whose low byte is the padding ends the input, as
    long as no padding precedes it. *)
Lemma sextets_stop (s1 s2 : jsstring) (c : Z) :
  lowByte c = PAD -> sextets (s1 ++ c :: s2) = sextets s1.
Proof.
  intros Hc. induction s1 as [|d s1 IH]; cbn [app sextets].
  - now rewrite (unbase64_lowByte_PAD c Hc), Hc.
  - rewrite IH. reflexivity.
Qed.

(** Only the low byte of a code unit is read. *)
Lemma lowByte_lowByte (c : Z) : lowByte (lowByte c) = lowByte c.
Proof. unfold lowByte. now rewrite Z.mod_mod by lia. Qed.

Lemma unbase64_lowByte (c : Z) : unbase64 (lowByte c) = unbase64 c.
Proof. unfold unbase64. now rewrite lowByte_lowByte. Qed.

Lemma sextets_lowByte (s : jsstring) : sextets (map lowByte s) = sextets s.
Proof.
  induction s as [|c s IH]; cbn [map sextets]; [reflexivity|].
  now rewrite unbase64_lowByte, lowByte_lowByte, IH.
Qed.
End Base64_round_trip.

(* ===================================================================== *)
(** ** Kinds of nodes under updates of the tree *)
(* ===================================================================== *)

Lemma is_dir_touch (t : Z) (k k' : list jsstring) (fs : FileSystem) :
  Fs.is_dir (Fs.touch t k fs) k' = Fs.is_dir fs k'.
Proof.
  unfold Fs.is_dir, Fs.touch. rewrite lookup_alter. case_decide; [subst|done].
  now destruct (fs !! k') as [[]|].
Qed.

Lemma is_file_touch (t : Z) (k k' : list jsstring) (fs : FileSystem) :
  Fs.is_file (Fs.touch t k fs) k' = Fs.is_file fs k'.
Proof.
  unfold Fs.is_file, Fs.touch. rewrite lookup_alter. case_decide; [subst|done].
  now destruct (fs !! k') as [[]|].
Qed.

Lemma is_dir_insert_Dir (t : Z) (k k' : list jsstring) (fs : FileSystem) :
  Fs.is_dir fs k' = true -> Fs.is_dir (<[k := Dir t]> fs) k' = true.
Proof.
  unfold Fs.is_dir. rewrite lookup_insert. now case_decide.
Qed.

Lemma is_file_insert_Dir (t : Z) (k k' : list jsstring) (fs : FileSystem) :
  Fs.is_file fs k' = false -> Fs.is_file (<[k := Dir t]> fs) k' = false.
Proof.
  unfold Fs.is_file. rewrite lookup_insert. now case_decide.
Qed.

Lemma is_dir_Some (fs : FileSystem) (k : list jsstring) :
  Fs.is_dir fs k = true -> exists t, fs !! k = Some (Dir t).
Proof.
  unfold Fs.is_dir. destruct (fs !! k) as [[c t|t]|]; try discriminate.
  intros _. now exists t.
Qed.

(** No regular file on the way to [k], nor at [k]. *)
Lemma blocked_false (fs : FileSystem) (k : list jsstring) :
  Fs.blocked fs k = false ->
  forall i : nat, (i <= length k)%nat -> Fs.is_file fs (take i k) = false.
Proof.
  unfold Fs.blocked, Fs.through_file. intros H i Hi.
  apply orb_false_iff in H as [H1 H2].
  destruct (decide (i = length k)) as [->|Hne].
  - now rewrite firstn_all.
  - destruct (Fs.is_file fs (take i k)) eqn:E; [|reflexivity].
    rewrite <- H1. symmetry. apply existsb_exists. exists i. split; [|exact E].
    apply in_seq. lia.
Qed.

(* ===================================================================== *)
(** ** [rm] of a directory *)
(* ===================================================================== *)




(* ===================================================================== *)
(** ** [mkdir] *)
(* ===================================================================== *)

(** What a valid path passes. *)
Lemma valid_check_arg (p : jsstring) :
  Fs.valid p = true -> Fs.check_arg p = None.
Proof.
  unfold Fs.valid, Fs.check_arg. intros H.
  apply andb_true_iff in H as [H _]. apply andb_true_iff in H as [H _].
  now destruct (Fs.has_nul p).
Qed.

Lemma valid_check_length (p : jsstring) :
  Fs.valid p = true -> Fs.check_length p = None.
Proof.
  unfold Fs.valid, Fs.check_length. intros H.
  apply andb_true_iff in H as [H _]. apply andb_true_iff in H as [_ H].
  apply Z.ltb_lt in H.
  now replace (Fs.PATH_MAX <=? Fs.byteLength p) with false
    by (symmetry; apply Z.leb_gt; exact H).
Qed.

Lemma valid_fits (p : jsstring) :
  Fs.valid p = true -> forallb Fs.fits (Fs.key p) = true.
Proof. unfold Fs.valid. intros H. now apply andb_true_iff in H as [_ H]. Qed.

Lemma mkdirp_creates (now : Z) (rest : list jsstring) :
  forall (pre : list jsstring) (fs : FileSystem),
    forallb Fs.fits rest = true ->
    (forall i : nat, (1 <= i <= length rest)%nat ->
                     Fs.is_file fs (pre ++ take i rest) = false) ->
    exists fs1,
      Fs.mkdirp now pre rest fs = (Returned tt, fs1)
      /\ (forall i : nat, (1 <= i <= length rest)%nat ->
                          Fs.is_dir fs1 (pre ++ take i rest) = true)
      /\ (forall k, Fs.is_dir fs k = true -> Fs.is_dir fs1 k = true).
Proof.
  induction rest as [|s rest IH]; intros pre fs Hfits Hfree; cbn [Fs.mkdirp].
  - exists fs. split; [reflexivity|]. split; [cbn; lia | auto].
  - cbn [forallb] in Hfits. apply andb_true_iff in Hfits as [Hs Hfits].
    assert (Hk : Fs.is_file fs (pre ++ [s]) = false).
    { apply (Hfree 1%nat). cbn. lia. }
    assert (Hdeep : forall fs' : FileSystem,
               (forall k, Fs.is_file fs k = false -> Fs.is_file fs' k = false) ->
               forall i : nat, (1 <= i <= length rest)%nat ->
                 Fs.is_file fs' ((pre ++ [s]) ++ take i rest) = false).
    { intros fs' Hfs' i Hi. apply Hfs'. rewrite <- app_assoc.
      apply (Hfree (S i)). cbn. lia. }
    assert (Hshape : forall (i : nat) (fs1 : FileSystem),
               Fs.is_dir fs1 (pre ++ [s]) = true ->
               (forall j : nat, (1 <= j <= length rest)%nat ->
                                Fs.is_dir fs1 ((pre ++ [s]) ++ take j rest) = true) ->
               (1 <= i <= length (s :: rest))%nat ->
               Fs.is_dir fs1 (pre ++ take i (s :: rest)) = true).
    { intros i fs1 H1 Hj Hi. destruct i as [|[|i]]; [lia | exact H1 |].
      cbn [take]. specialize (Hj (S i)). rewrite <- app_assoc in Hj.
      apply Hj. cbn in Hi. lia. }
    destruct (fs !! (pre ++ [s])) as [[c t|t]|] eqn:E.
    + unfold Fs.is_file in Hk. rewrite E in Hk. discriminate.
    + destruct (IH (pre ++ [s]) fs Hfits (Hdeep fs (fun _ H => H)))
        as (fs1 & Hrun & Hdirs & Hmono).
      exists fs1. split; [exact Hrun|]. split; [|exact Hmono].
      intros i Hi. apply Hshape; [| exact Hdirs | exact Hi].
      apply Hmono. unfold Fs.is_dir. now rewrite E.
    + rewrite Hs.
      set (fs2 := <[pre ++ [s] := Dir now]> (Fs.touch now pre fs)).
      assert (Hfs2 : forall k, Fs.is_file fs k = false -> Fs.is_file fs2 k = false).
      { intros k Hkf. apply is_file_insert_Dir. now rewrite is_file_touch. }
      destruct (IH (pre ++ [s]) fs2 Hfits (Hdeep fs2 Hfs2))
        as (fs1 & Hrun & Hdirs & Hmono).
      exists fs1. split; [exact Hrun|]. split.
      * intros i Hi. apply Hshape; [| exact Hdirs | exact Hi].
        apply Hmono. unfold Fs.is_dir, fs2. now rewrite lookup_insert_eq.
      * intros k Hkd. apply Hmono. apply is_dir_insert_Dir.
        now rewrite is_dir_touch.
Qed.

Lemma mkdirp_existing (now : Z) (rest : list jsstring) :
  forall (pre : list jsstring) (fs : FileSystem),
    (forall i : nat, (1 <= i <= length rest)%nat ->
                     Fs.is_dir fs (pre ++ take i rest) = true) ->
    Fs.mkdirp now pre rest fs = (Returned tt, fs).
Proof.
  induction rest as [|s rest IH]; intros pre fs Hdirs; cbn [Fs.mkdirp].
  - reflexivity.
  - destruct (is_dir_Some fs (pre ++ [s])) as [t Ht].
    { apply (Hdirs 1%nat). cbn. lia. }
    rewrite Ht. apply IH. intros i Hi. rewrite <- app_assoc.
    apply (Hdirs (S i)). cbn. lia.
Qed.

(** For a valid path the recursive [fs.mkdir] is its walk. *)
Lemma mkdir_recursive_valid (now : Z) (p : jsstring) (fs : FileSystem) :
  Fs.valid p = true ->
  Fs.mkdir now p true fs = Fs.mkdirp now [] (Fs.key p) fs.
Proof.
  intros Hv. unfold Fs.mkdir. cbn [Fs.first_error].
  rewrite (valid_check_arg p Hv), (valid_check_length p Hv).
  now destruct (fs !! Fs.key p).
Qed.




(* ===================================================================== *)
(** ** Writing, then reading *)
(* ===================================================================== *)

(** The content of the file at [p] after [Fs.writeFile], when the write is
    possible: the bytes written, after the previous content when
    appending. *)
Lemma writeFile_writable (now : Z) (p : jsstring) (buf : Buffer) (app : bool)
    (fs : FileSystem) :
  Fs.writable fs p = true ->
  exists fs1 t,
    Fs.writeFile now p buf app fs = (Returned tt, fs1)
    /\ fs1 !! Fs.key p = Some (File (kept fs p app ++ buf) t).
Proof.
  unfold Fs.writable, Fs.writeFile, kept. intros H.
  destruct (fs !! Fs.key p) as [[c t|t]|] eqn:E; [| discriminate |].
  - destruct app; [destruct buf as [|b buf]|].
    + exists fs, t. split; [reflexivity|]. now rewrite app_nil_r.
    + eexists. exists now. split; [reflexivity|]. apply lookup_insert_eq.
    + eexists. exists now. split; [reflexivity|]. apply lookup_insert_eq.
  - rewrite H. eexists. exists now. split; [reflexivity|].
    apply lookup_insert_eq.
Qed.

Lemma kept_overwrite (fs : FileSystem) (p : jsstring) : kept fs p false = [].
Proof. unfold kept. now destruct (fs !! Fs.key p) as [[]|]. Qed.

Lemma readFile_file (p : jsstring) (c : Buffer) (t : Z) (fs : FileSystem) :
  fs !! Fs.key p = Some (File c t) -> Fs.readFile p fs = (Returned c, fs).
Proof. unfold Fs.readFile. now intros ->. Qed.




(* ===================================================================== *)
(** ** The entries of [ls] *)
(* ===================================================================== *)

Lemma mapM_returned {A B} (f : A -> FS B) (xs : list A) (fs fs' : FileSystem)
    (l : list B) :
  (forall x, read_only (f x)) ->
  mapM f xs fs = (Returned l, fs') ->
  Forall2 (fun x y => f x fs = (Returned y, fs)) xs l.
Proof.
  intros Hf. revert l fs'. induction xs as [|x xs IH]; intros l fs'; cbn [mapM].
  - intros [= <- _]. constructor.
  - unfold bind. pose proof (Hf x fs) as Hx.
    destruct (f x fs) as [[y|e] fs1] eqn:Ex; cbn in Hx; subst fs1; [|discriminate].
    destruct (mapM f xs fs) as [[ys|e] fs2] eqn:Exs; [|discriminate].
    intros [= <- _]. constructor; [exact Ex|]. now apply (IH ys fs2).
Qed.

(** The three values of [type]. *)
Lemma entryType_cases (s : Stats) :
  entryType s = lit "file" \/ entryType s = lit "dir" \/ entryType s = lit "other".
Proof. unfold entryType. destruct (isFile s), (isDirectory s); auto. Qed.

(** What [statEntry] returns for the node at a path. *)
Lemma statEntry_returned (abs : jsstring) (fs fs' : FileSystem) (e : Entry.t) :
  statEntry abs fs = (Returned e, fs') ->
  exists n,
    fs !! Fs.key abs = Some n
    /\ e = {| Entry.name := Path.basename abs;
              Entry.type := entryType (Fs.stats_of n);
              Entry.size := size (Fs.stats_of n);
              Entry.mtimeMs := mtimeMs (Fs.stats_of n) |}.
Proof.
  unfold statEntry, bind, Fs.stat.
  destruct (fs !! Fs.key abs) as [n|]; [|discriminate].
  cbn. intros [= <- _]. now exists n.
Qed.

(** C7, as stated, fails: the entry that [ls] produces for the directory
    [docs] has the [type] [dir], which is not the string [directory]. *)
Lemma ls_directory_type_is_dir :
  exists e,
    ls.detailed app_process {| ls.path := None |} app_tree = (Returned [e], app_tree)
    /\ Entry.name e = lit "docs"
    /\ Entry.type e = lit "dir"
    /\ Entry.type e <> lit "directory".
Proof.
  exists {| Entry.name := lit "docs"; Entry.type := lit "dir";
            Entry.size := 4096; Entry.mtimeMs := 4 |}.
  split; [|repeat split; discriminate].
  apply read_only_outcome; [apply read_only_ls_detailed|].
  vm_compute. reflexivity.
Qed.

(** C7, amended: every entry that [ls] produces is an object with the
    properties [name], [type], [size] and [mtimeMs], taken from the stat of
    one child of the listed directory: [name] is the base name of the
    child's path, [type] is one of the strings [file], [dir] and [other],
    it is [dir] for a child that is a directory and [file] for a regular
    file, [size] is the byte count and [mtimeMs] the time of last
    modification. *)
Theorem ls_entries (proc : Process) (a : ls.Args) (fs fs' : FileSystem)
    (l : list Entry.t) :
  ls.detailed proc a fs = (Returned l, fs') ->
  Forall (fun e =>
            (Entry.type e = lit "file" \/ Entry.type e = lit "dir"
             \/ Entry.type e = lit "other")
            /\ exists (child : jsstring) (n : node),
                 fs !! Fs.key child = Some n
                 /\ Entry.name e = Path.basename child
                 /\ Entry.to_json e
                    = JObject [("name"%string, JString (Path.basename child));
                               ("type"%string, JString (Entry.type e));
                               ("size"%string, JNumber (Entry.size e));
                               ("mtimeMs"%string, JNumber (Entry.mtimeMs e))]
                 /\ match n with
                    | Dir t =>
                        Entry.type e = lit "dir" /\ Entry.mtimeMs e = t
                    | File c t =>
                        Entry.type e = lit "file"
                        /\ Entry.size e = Z.of_nat (length c)
                        /\ Entry.mtimeMs e = t
                    end) l.
Proof.
  unfold ls.detailed, bind.
  destruct (lift (safe proc _) fs) as [[abs|e] fs1] eqn:Es; [|discriminate].
  pose proof (read_only_lift (safe proc (default (lit ".") (ls.path a))) fs) as H1.
  rewrite Es in H1. cbn in H1. subst fs1.
  pose proof (read_only_readdir abs fs) as H2.
  destruct (Fs.readdir abs fs) as [[names|e] fs1]; cbn in H2; subst fs1;
    [|discriminate].
  intros Hmap.
  apply mapM_returned in Hmap; [|intros x; apply read_only_statEntry].
  induction Hmap as [|n e names l Hne _ IH]; constructor; [|exact IH].
  apply statEntry_returned in Hne as (nd & Hnd & ->). cbn.
  split; [apply entryType_cases|].
  exists (Path.join abs n), nd. split; [exact Hnd|].
  repeat split. destruct nd; cbn; auto.
Qed.

Lemma ls_entries_witness :
  Forall (fun e => Entry.type e = lit "file" \/ Entry.type e = lit "dir"
                   \/ Entry.type e = lit "other")
    [{| Entry.name := lit "docs"; Entry.type := lit "dir";
        Entry.size := 4096; Entry.mtimeMs := 4 |}].
Proof.
  refine (Forall_impl _ _ _
            (ls_entries app_process {| ls.path := None |} app_tree app_tree _ _) _).
  - apply read_only_outcome; [apply read_only_ls_detailed|].
    vm_compute. reflexivity.
  - intros e [H _]. exact H.
Defined.

(* ===================================================================== *)
(** ** The encoding argument *)
(* ===================================================================== *)

Lemma prop_insert_eq (o : rawArgs) (k : string) (v : jsval) :
  prop (<[k := v]> o) k = v.
Proof. unfold prop. now rewrite lookup_insert_eq. Qed.

Lemma prop_insert_ne (o : rawArgs) (k k' : string) (v : jsval) :
  k <> k' -> prop (<[k := v]> o) k' = prop o k'.
Proof. intros H. unfold prop. now rewrite lookup_insert_ne. Qed.

(** C8, as stated, fails: with the plain shape [ReadFileShape] the
    arguments [{ path: 'a.txt', encoding: 'utf-8' }] do not parse, and the
    call ends with a [ZodError] (kind [InvalidArgument]) before the
    executor runs. *)
Lemma plain_shape_rejects_alias :
  FsSpec.ReadFileShape alias_args = None
  /\ invoke FsSpec.ReadFileShape (readFile.execute app_process) alias_args app_tree
     = (Thrown ZodError, app_tree)
  /\ kind_of ZodError = InvalidArgument.
Proof. repeat split; reflexivity. Qed.

(** C8, amended: with the alias-friendly shapes [Read] and [Write] (over
    the scalar [Encoding]) a raw [encoding] of [utf-8] is turned into
    [utf8] when the arguments are parsed: they parse exactly as the same
    arguments with [encoding] set to [utf8], so the call does what that
    call does, and the executor sees [utf8].  With the plain shapes
    [ReadFileShape] and [WriteFileShape] the same arguments are rejected. *)
Theorem utf8_alias (o : rawArgs) :
  prop o "encoding" = VString (lit "utf-8") ->
  let o' := <["encoding"%string := VString (lit "utf8")]> o in
  (FsMcp.Read o = FsMcp.Read o'
   /\ FsMcp.Write o = FsMcp.Write o'
   /\ (forall run fs, invoke FsMcp.Read run o fs = invoke FsMcp.Read run o' fs)
   /\ (forall run fs, invoke FsMcp.Write run o fs = invoke FsMcp.Write run o' fs)
   /\ (forall a, FsMcp.Read o = Some a -> readFile.encoding a = Some (lit "utf8"))
   /\ (forall a, FsMcp.Write o = Some a -> writeFile.encoding a = Some (lit "utf8")))
  /\ FsSpec.ReadFileShape o = None
  /\ FsSpec.WriteFileShape o = None.
Proof.
  intros He o'.
  assert (HR : FsMcp.Read o = FsMcp.Read o').
  { unfold FsMcp.Read, o'. rewrite prop_insert_eq, !prop_insert_ne, He by done.
    reflexivity. }
  assert (HW : FsMcp.Write o = FsMcp.Write o').
  { unfold FsMcp.Write, o'. rewrite prop_insert_eq, !prop_insert_ne, He by done.
    reflexivity. }
  repeat split.
  - exact HR.
  - exact HW.
  - intros run fs. unfold invoke. now rewrite HR.
  - intros run fs. unfold invoke. now rewrite HW.
  - intros a. unfold FsMcp.Read. rewrite He. unfold z.describe.
    destruct (z.string (prop o "path")); [|discriminate].
    cbn. now intros [= <-].
  - intros a. unfold FsMcp.Write. rewrite He. unfold z.describe.
    destruct (z.string (prop o "path")); [|discriminate].
    destruct (z.default _ z.string (prop o "data")); [|discriminate].
    cbn. destruct (z.optional _ (prop o "append")); [|discriminate].
    now intros [= <-].
  - unfold FsSpec.ReadFileShape. rewrite He. unfold z.describe.
    now destruct (z.string (prop o "path")).
  - unfold FsSpec.WriteFileShape. rewrite He. unfold z.describe.
    destruct (z.string (prop o "path")); [|reflexivity].
    now destruct (z.string (prop o "data")).
Qed.

Lemma utf8_alias_witness :
  FsMcp.Read alias_args
  = Some {| readFile.path := lit "a.txt"; readFile.encoding := Some (lit "utf8") |}.
Proof.
  destruct (utf8_alias alias_args eq_refl) as [(H & _) _].
  rewrite H. reflexivity.
Defined.

(* ===================================================================== *)
(** ** [base64] data that is not base64 *)
(* ===================================================================== *)

(** The one error of [safe] and [node:fs] of the kind [InvalidArgument]
    is the one for a NUL character in a path. *)
Lemma platform_error_InvalidArgument (e : error) :
  platform_error e -> kind_of e = InvalidArgument ->
  e = FsError ERR_INVALID_ARG_VALUE.
Proof.
  intros [->|[code ->]]; [discriminate|]. now destruct code.
Qed.

Lemma walk_not_arg (fs : FileSystem) (rest : list jsstring) :
  forall pre, Fs.walk fs pre rest <> Some ERR_INVALID_ARG_VALUE.
Proof.
  induction rest as [|s rest IH]; intros pre; cbn [Fs.walk]; [discriminate|].
  destruct (fs !! (pre ++ [s])) as [[]|]; [discriminate | apply IH |].
  now destruct (Fs.fits s).
Qed.

Lemma fault_arg (fs : FileSystem) (p : jsstring) :
  Fs.fault fs p = Some ERR_INVALID_ARG_VALUE -> Fs.has_nul p = true.
Proof.
  unfold Fs.fault, Fs.check_arg, Fs.check_length, Fs.check_name.
  cbn [Fs.first_error].
  destruct (Fs.has_nul p); [reflexivity|].
  destruct (Fs.PATH_MAX <=? Fs.byteLength p); [discriminate|].
  pose proof (walk_not_arg fs (Fs.parent (Fs.key p)) []) as Hw.
  destruct (Fs.walk fs [] (Fs.parent (Fs.key p))) as [e|]; [congruence|].
  destruct (last (Fs.key p)) as [name|]; [|discriminate].
  now destruct (Fs.fits name).
Qed.

Lemma writeFile_arg_error (now : Z) (p : jsstring) (buf : Buffer) (app : bool)
    (fs : FileSystem) :
  (Fs.writeFile now p buf app fs).1 = Thrown (FsError ERR_INVALID_ARG_VALUE) ->
  Fs.has_nul p = true.
Proof.
  unfold Fs.writeFile, Fs.missing.
  destruct (fs !! Fs.key p) as [[c t|t]|].
  - destruct app; [destruct buf|]; discriminate.
  - discriminate.
  - destruct (Fs.creatable fs p); [discriminate|].
    destruct (Fs.fault fs p) as [e|] eqn:E; cbn; [|discriminate].
    intros H. injection H as ->. exact (fault_arg fs p E).
Qed.




(* ===================================================================== *)
(** * Further properties of the helpers, the shapes and the executors *)
(* ===================================================================== *)

(* ===================================================================== *)
(** ** Pieces of paths *)
(* ===================================================================== *)

Lemma str_eqb_eq (a b : jsstring) : str_eqb a b = true <-> a = b.
Proof.
  revert b. induction a as [|x a IH]; intros [|y b]; cbn; try easy.
  rewrite andb_true_iff, Z.eqb_eq, IH. split; [intros [-> ->] | intros [= -> ->]]; auto.
Qed.

Lemma str_eqb_refl (a : jsstring) : str_eqb a a = true.
Proof. now apply str_eqb_eq. Qed.

Lemma startsWith_length (s p : jsstring) :
  startsWith s p = true -> (length p <= length s)%nat.
Proof.
  revert s. induction p as [|c p IH]; intros s; [cbn; lia|].
  destruct s as [|d s]; cbn; [discriminate|].
  intros H. apply andb_true_iff in H as [_ H]. apply IH in H. lia.
Qed.

Lemma startsWith_app (p s : jsstring) : startsWith (p ++ s) p = true.
Proof.
  induction p as [|c p IH]; cbn; [now destruct s|]. now rewrite Z.eqb_refl.
Qed.

Lemma split_acc_app (a b cur : jsstring) :
  Path.split_acc cur (a ++ CHAR_FORWARD_SLASH :: b)
  = Path.split_acc cur a ++ Path.split b.
Proof.
  revert cur. induction a as [|c a IH]; intros cur; cbn [app Path.split_acc].
  - now rewrite Z.eqb_refl.
  - destruct (c =? CHAR_FORWARD_SLASH); [cbn; f_equal; apply IH | apply IH].
Qed.

Lemma split_app (a b : jsstring) :
  Path.split (a ++ CHAR_FORWARD_SLASH :: b) = Path.split a ++ Path.split b.
Proof. apply split_acc_app. Qed.

Lemma split_acc_no_slash (s cur : jsstring) :
  no_slash s = true -> Path.split_acc cur s = [rev cur ++ s].
Proof.
  revert cur. induction s as [|c s IH]; intros cur H; cbn [Path.split_acc].
  - now rewrite app_nil_r.
  - cbn in H. apply andb_true_iff in H as [Hc Hs].
    apply negb_true_iff in Hc. rewrite Hc, IH by exact Hs.
    cbn [rev]. now rewrite <- app_assoc.
Qed.

Lemma split_no_slash (s : jsstring) : no_slash s = true -> Path.split s = [s].
Proof. intros H. unfold Path.split. now rewrite split_acc_no_slash. Qed.

Lemma split_join_segs (ks : list jsstring) :
  forallb no_slash ks = true -> ks <> [] ->
  Path.split (Path.join_segs ks) = ks.
Proof.
  induction ks as [|s [|s2 ks] IH]; intros H Hne; [easy| |].
  - cbn in *. apply split_no_slash. now apply andb_true_iff in H as [H _].
  - cbn [forallb] in H. apply andb_true_iff in H as [Hs H].
    change (Path.join_segs (s :: s2 :: ks))
      with (s ++ CHAR_FORWARD_SLASH :: Path.join_segs (s2 :: ks)).
    rewrite split_app, split_no_slash by exact Hs.
    rewrite IH; [reflexivity | exact H | easy].
Qed.

Lemma valid_name_no_slash (s : jsstring) : valid_name s = true -> no_slash s = true.
Proof. unfold valid_name. rewrite !andb_true_iff. tauto. Qed.

Lemma valid_names_no_slash (ks : list jsstring) :
  forallb valid_name ks = true -> forallb no_slash ks = true.
Proof.
  rewrite !forallb_forall. intros H s Hs. apply valid_name_no_slash, H, Hs.
Qed.

Lemma valid_name_nonempty (s : jsstring) : valid_name s = true -> s <> [].
Proof. unfold valid_name. now destruct s. Qed.

(** The pieces of an absolute path given by its pieces: an empty piece
    before the first separator, then the pieces (a single empty piece when
    there are none). *)
Lemma split_path_of (ks : list jsstring) :
  forallb no_slash ks = true ->
  Path.split (path_of ks) = [] :: match ks with [] => [[]] | _ => ks end.
Proof.
  intros H. unfold path_of.
  change (CHAR_FORWARD_SLASH :: Path.join_segs ks)
    with ([] ++ CHAR_FORWARD_SLASH :: Path.join_segs ks).
  rewrite split_app. cbn [Path.split Path.split_acc rev app]. f_equal.
  destruct ks as [|s ks]; [reflexivity|]. now apply split_join_segs.
Qed.

Lemma filter_valid_names (ks : list jsstring) :
  forallb valid_name ks = true -> filter (fun s : jsstring => s <> []) ks = ks.
Proof.
  induction ks as [|s ks IH]; [reflexivity|]. cbn [forallb].
  intros H. apply andb_true_iff in H as [Hs H].
  rewrite filter_cons_True by now apply valid_name_nonempty.
  now rewrite IH.
Qed.

Lemma key_path_of (ks : list jsstring) :
  forallb valid_name ks = true -> Fs.key (path_of ks) = ks.
Proof.
  intros H. unfold Fs.key. rewrite split_path_of by now apply valid_names_no_slash.
  rewrite filter_cons_False by (intros Hne; now apply Hne).
  destruct ks as [|s ks]; [reflexivity|]. now apply filter_valid_names.
Qed.

Lemma canonical_path_of (ks : list jsstring) :
  forallb valid_name ks = true -> canonical (path_of ks).
Proof. intros H. unfold canonical. now rewrite key_path_of. Qed.

(** ** [normalizeString] on pieces *)

Lemma normalize_acc_empty (a : bool) (res segs : list jsstring) :
  Path.normalize_acc a res ([] :: segs) = Path.normalize_acc a res segs.
Proof. reflexivity. Qed.

Lemma normalize_acc_valid (a : bool) (ks res more : list jsstring) :
  forallb valid_name ks = true ->
  Path.normalize_acc a res (ks ++ more) = Path.normalize_acc a (rev ks ++ res) more.
Proof.
  revert res. induction ks as [|s ks IH]; intros res H; [reflexivity|].
  cbn [forallb] in H. apply andb_true_iff in H as [Hs H].
  cbn [app Path.normalize_acc].
  unfold valid_name in Hs. rewrite !andb_true_iff, !negb_true_iff in Hs.
  destruct Hs as [[[Hne _] Hd] Hdd]. rewrite Hne, Hd, Hdd. cbn [orb].
  rewrite IH by exact H. cbn [rev]. now rewrite <- app_assoc.
Qed.

(** Without [allowAboveRoot] the output holds valid names only. *)
Lemma normalize_acc_names (segs res : list jsstring) :
  forallb valid_name res = true -> forallb no_slash segs = true ->
  forallb valid_name (Path.normalize_acc false res segs) = true.
Proof.
  revert res. induction segs as [|s segs IH]; intros res Hres Hsegs.
  - cbn. rewrite forallb_forall in *. intros x Hx. apply Hres.
    now apply in_rev.
  - cbn [forallb] in Hsegs. apply andb_true_iff in Hsegs as [Hs Hsegs].
    cbn [Path.normalize_acc].
    destruct (match s with [] => true | _ => false end || Path.is_dot s) eqn:E1;
      [now apply IH|].
    apply orb_false_iff in E1 as [Hne Hd].
    destruct (Path.is_dotdot s) eqn:E2.
    + destruct res as [|last res'].
      * now apply IH.
      * cbn [forallb] in Hres. apply andb_true_iff in Hres as [Hl Hres'].
        assert (Path.is_dotdot last = false) as ->.
        { unfold valid_name in Hl. rewrite !andb_true_iff, !negb_true_iff in Hl.
          tauto. }
        now apply IH.
    + apply IH; [|exact Hsegs]. cbn [forallb]. rewrite Hres, andb_true_r.
      unfold valid_name. now rewrite Hne, Hs, Hd, E2.
Qed.

Lemma split_acc_pieces (p cur : jsstring) :
  no_slash cur = true -> forallb no_slash (Path.split_acc cur p) = true.
Proof.
  revert cur. induction p as [|c p IH]; intros cur H; cbn [Path.split_acc].
  - cbn. rewrite andb_true_r. unfold no_slash in *. rewrite forallb_forall in *.
    intros x Hx. apply H. now apply in_rev.
  - destruct (c =? CHAR_FORWARD_SLASH) eqn:E.
    + cbn [forallb]. rewrite IH by reflexivity. rewrite andb_true_r.
      unfold no_slash in *. rewrite forallb_forall in *.
      intros x Hx. apply H. now apply in_rev.
    + apply IH. cbn. now rewrite E.
Qed.

Lemma split_pieces (p : jsstring) : forallb no_slash (Path.split p) = true.
Proof. now apply split_acc_pieces. Qed.

(** ** [path.resolve] *)

Lemma resolve_loop_absolute (cwd : jsstring) (args : list jsstring) (acc : jsstring) :
  Path.isAbsolute cwd = true ->
  (Path.resolve_loop (args ++ [cwd]) acc).2 = true.
Proof.
  intros Hc. revert acc. induction args as [|p args IH]; intros acc; cbn.
  - destruct cwd as [|c cwd]; [discriminate|]. cbn in *. now rewrite Hc.
  - destruct p as [|c p]; [apply IH|].
    destruct (Path.isAbsolute (c :: p)); [reflexivity | apply IH].
Qed.

(** In a process whose working directory is absolute, [path.resolve]
    returns a canonical path. *)
Lemma resolve_canonical (cwd : jsstring) (args : list jsstring) :
  Path.isAbsolute cwd = true -> canonical (Path.resolve cwd args).
Proof.
  intros Hc. unfold Path.resolve.
  pose proof (resolve_loop_absolute cwd (rev args) [] Hc) as H.
  cbn [rev]. destruct (Path.resolve_loop (rev args ++ [cwd]) []) as [rp b].
  cbn in H. subst b. cbn [negb].
  apply canonical_path_of. unfold Path.normalizeSegments.
  apply normalize_acc_names; [reflexivity | apply split_pieces].
Qed.

(* ===================================================================== *)
(** ** What [safe] returns for plain arguments *)
(* ===================================================================== *)

Lemma join_segs_app (rs ks : list jsstring) :
  exists t, Path.join_segs (rs ++ ks) = Path.join_segs rs ++ t
            /\ (forallb valid_name ks = true -> ks <> [] -> t <> []).
Proof.
  induction rs as [|s [|s2 rs] IH].
  - exists (Path.join_segs ks). split; [reflexivity|].
    destruct ks as [|k [|k2 ks]]; [easy| |]; cbn; intros H _.
    + rewrite andb_true_r in H. now apply valid_name_nonempty.
    + apply andb_true_iff in H as [H _]. apply valid_name_nonempty in H.
      now destruct k.
  - destruct ks as [|k ks].
    + exists []. split; [cbn; now rewrite app_nil_r|easy].
    + exists (CHAR_FORWARD_SLASH :: Path.join_segs (k :: ks)). split; easy.
  - destruct IH as (t & Ht & Hne). exists t. split; [|exact Hne].
    change (Path.join_segs ((s :: s2 :: rs) ++ ks))
      with (s ++ CHAR_FORWARD_SLASH :: Path.join_segs ((s2 :: rs) ++ ks)).
    rewrite Ht.
    change (Path.join_segs (s :: s2 :: rs))
      with (s ++ CHAR_FORWARD_SLASH :: Path.join_segs (s2 :: rs)).
    now rewrite <- app_assoc.
Qed.

Lemma join_segs_nonempty (ks : list jsstring) :
  forallb valid_name ks = true -> ks <> [] -> Path.join_segs ks <> [].
Proof.
  intros H Hne. destruct (join_segs_app [] ks) as (t & Ht & Ht').
  cbn [app Path.join_segs] in Ht. rewrite Ht. now apply Ht'.
Qed.

(** Normalizing what follows the pieces of a canonical root. *)
Lemma normalize_after_root (rs more : list jsstring) :
  forallb valid_name rs = true ->
  Path.normalize_acc false [] (Path.split (path_of rs) ++ more)
  = Path.normalize_acc false (rev rs) more.
Proof.
  intros H. rewrite split_path_of by now apply valid_names_no_slash.
  cbn [app]. rewrite normalize_acc_empty.
  destruct rs as [|s rs]; [reflexivity|].
  rewrite normalize_acc_valid by exact H. now rewrite app_nil_r.
Qed.

(** The path [path.resolve(ROOT, rel)] builds before normalizing, for a
    canonical root and a relative [rel]. *)
Lemma resolve_relative (cwd root rel : jsstring) :
  Path.isAbsolute root = true -> Path.isAbsolute rel = false ->
  Path.resolve cwd [root; rel]
  = CHAR_FORWARD_SLASH
      :: Path.normalizeString false
           (root ++ CHAR_FORWARD_SLASH
              :: match rel with [] => [] | _ => rel ++ [CHAR_FORWARD_SLASH] end).
Proof.
  intros Hroot Hrel. unfold Path.resolve. cbn [rev app Path.resolve_loop].
  destruct root as [|r root]; [discriminate|].
  destruct rel as [|c rel].
  - rewrite Hroot. reflexivity.
  - rewrite Hrel, Hroot. reflexivity.
Qed.

Lemma ROOT_canonical (proc : Process) :
  Path.isAbsolute (cwd proc) = true -> canonical (ROOT proc).
Proof. apply resolve_canonical. Qed.

Lemma isAbsolute_path_of (ks : list jsstring) : Path.isAbsolute (path_of ks) = true.
Proof. reflexivity. Qed.

Lemma join_segs_relative (ks : list jsstring) :
  forallb valid_name ks = true -> Path.isAbsolute (Path.join_segs ks) = false.
Proof.
  destruct ks as [|k ks]; [reflexivity|]. cbn [forallb]. intros H.
  apply andb_true_iff in H as [H _].
  assert (Hk : Path.isAbsolute k = false).
  { unfold valid_name in H. rewrite !andb_true_iff in H.
    destruct H as [[[_ H] _] _]. destruct k as [|c k]; [reflexivity|].
    cbn in *. apply andb_true_iff in H as [H _]. now apply negb_true_iff in H. }
  destruct k as [|c k]; [now destruct ks|].
  destruct ks; exact Hk.
Qed.

(** The resolved path of valid names below the root. *)
Lemma resolve_valid_names (proc : Process) (ks : list jsstring) :
  Path.isAbsolute (cwd proc) = true ->
  forallb valid_name ks = true ->
  Path.resolve (cwd proc) [ROOT proc; Path.join_segs ks]
  = path_of (Fs.key (ROOT proc) ++ ks).
Proof.
  intros Hc Hks. destruct (ROOT_canonical proc Hc) as [Hroot Hrs].
  set (rs := Fs.key (ROOT proc)) in *.
  rewrite resolve_relative;
    [| rewrite Hroot; reflexivity | now apply join_segs_relative].
  unfold path_of at 1. f_equal.
  unfold Path.normalizeString, Path.normalizeSegments. f_equal.
  rewrite Hroot, split_app, normalize_after_root by exact Hrs.
  destruct ks as [|k ks].
  - cbn [Path.join_segs Path.split Path.split_acc rev].
    rewrite normalize_acc_empty. cbn. now rewrite rev_involutive, app_nil_r.
  - pose proof (join_segs_nonempty (k :: ks) Hks) as Hj.
    destruct (Path.join_segs (k :: ks)) as [|c r] eqn:E;
      [exfalso; apply Hj; [discriminate | reflexivity]|].
    rewrite <- E. change (Path.join_segs (k :: ks) ++ [CHAR_FORWARD_SLASH])
      with (Path.join_segs (k :: ks) ++ CHAR_FORWARD_SLASH :: []).
    rewrite split_app, split_join_segs;
      [| now apply valid_names_no_slash | discriminate].
    rewrite normalize_acc_valid by exact Hks.
    change (Path.split []) with [[] : jsstring].
    rewrite normalize_acc_empty. cbn [Path.normalize_acc].
    now rewrite rev_app_distr, !rev_involutive.
Qed.

Lemma startsWith_path_of (rs ks : list jsstring) :
  startsWith (path_of (rs ++ ks)) (path_of rs) = true.
Proof.
  destruct (join_segs_app rs ks) as (t & Ht & _). unfold path_of.
  rewrite Ht. apply (startsWith_app (CHAR_FORWARD_SLASH :: Path.join_segs rs)).
Qed.

Lemma safe_accepts_names_aux (proc : Process) (ks : list jsstring) :
  Path.isAbsolute (cwd proc) = true ->
  forallb valid_name ks = true ->
  safe proc (Path.join_segs ks) = Returned (path_of (Fs.key (ROOT proc) ++ ks))
  /\ forallb valid_name (Fs.key (ROOT proc) ++ ks) = true.
Proof.
  intros Hc Hks. destruct (ROOT_canonical proc Hc) as [Hroot Hrs].
  split; [| rewrite forallb_app; now rewrite Hrs, Hks].
  unfold safe. rewrite resolve_valid_names by assumption.
  rewrite Hroot at 2. now rewrite startsWith_path_of.
Qed.

(** X1: every relative path made of valid names, joined by separators, is
    accepted by [safe]: it returns the canonical path whose pieces are the
    pieces of the root followed by these names.  The empty path gives the
    root itself. *)
Theorem safe_accepts_names (proc : Process) (ks : list jsstring) :
  Path.isAbsolute (cwd proc) = true ->
  forallb valid_name ks = true ->
  exists abs,
    safe proc (Path.join_segs ks) = Returned abs
    /\ Fs.key abs = Fs.key (ROOT proc) ++ ks
    /\ canonical abs.
Proof.
  intros Hc Hks. destruct (safe_accepts_names_aux proc ks Hc Hks) as [Hs Hall].
  exists (path_of (Fs.key (ROOT proc) ++ ks)). split; [exact Hs|]. split.
  - now apply key_path_of.
  - now apply canonical_path_of.
Qed.

Lemma safe_accepts_names_witness :
  exists abs,
    safe app_process (lit "docs/note.txt") = Returned abs
    /\ Fs.key abs = [lit "srv"; lit "app"; lit "docs"; lit "note.txt"]
    /\ canonical abs.
Proof.
  apply (safe_accepts_names app_process [lit "docs"; lit "note.txt"]);
    reflexivity.
Defined.

(** X2: whatever [safe] returns is a canonical path: absolute, made of
    valid names (no empty piece, no [.] and no [..]) joined by single
    separators. *)
Theorem safe_returns_canonical (proc : Process) (rel abs : jsstring) :
  Path.isAbsolute (cwd proc) = true ->
  safe proc rel = Returned abs ->
  canonical abs.
Proof.
  intros Hc H. apply safe_returned in H as [-> _]. now apply resolve_canonical.
Qed.

Lemma safe_returns_canonical_witness :
  canonical (lit "/srv/app/docs").
Proof.
  apply (safe_returns_canonical app_process (lit "./x/../docs//") (lit "/srv/app/docs"));
    reflexivity.
Defined.

Lemma startsWith_refl (s : jsstring) : startsWith s s = true.
Proof. rewrite <- (app_nil_r s) at 1. apply startsWith_app. Qed.

(** X3: for the arguments [.] and the empty string [safe] returns the root
    itself, so [ls] without a [path] lists the root directory. *)
Theorem safe_dot_is_root (proc : Process) (fs : FileSystem) :
  Path.isAbsolute (cwd proc) = true ->
  safe proc (lit ".") = Returned (ROOT proc)
  /\ safe proc [] = Returned (ROOT proc)
  /\ ls.detailed proc {| ls.path := None |} fs
     = (entries <- Fs.readdir (ROOT proc) ;;
        mapM (fun n => statEntry (Path.join (ROOT proc) n)) entries) fs.
Proof.
  intros Hc. destruct (ROOT_canonical proc Hc) as [Hroot Hrs].
  assert (Hdot : safe proc (lit ".") = Returned (ROOT proc)).
  { unfold safe. set (rs := Fs.key (ROOT proc)) in *.
    assert (Path.resolve (cwd proc) [ROOT proc; lit "."] = path_of rs) as ->.
    { rewrite resolve_relative; [| rewrite Hroot; reflexivity | reflexivity].
      unfold path_of. f_equal.
      unfold Path.normalizeString, Path.normalizeSegments. f_equal.
      rewrite Hroot, split_app, normalize_after_root by exact Hrs.
      change (Path.split _) with [lit "."; []].
      cbn [Path.normalize_acc]. apply rev_involutive. }
    rewrite Hroot. now rewrite startsWith_refl. }
  split; [exact Hdot|]. split.
  - destruct (safe_accepts_names_aux proc [] Hc eq_refl) as [H1 H2].
    rewrite app_nil_r, <- Hroot in H1. exact H1.
  - unfold ls.detailed, bind. cbn [ls.path default from_option].
    rewrite Hdot. reflexivity.
Qed.

Lemma safe_dot_is_root_witness :
  safe app_process (lit ".") = Returned (lit "/srv/app").
Proof.
  exact (proj1 (safe_dot_is_root app_process app_tree eq_refl)).
Defined.

Lemma length_path_of_snoc (ks : list jsstring) (k : jsstring) :
  forallb valid_name [k] = true ->
  (length (path_of ks) < length (path_of (ks ++ [k])))%nat.
Proof.
  intros Hk. destruct (join_segs_app ks [k]) as (t & Ht & Hne).
  unfold path_of. cbn [length]. rewrite Ht, length_app.
  specialize (Hne Hk). destruct t; [now exfalso; apply Hne|]. cbn. lia.
Qed.

(** X4: the argument [..] is rejected by [safe] whenever the root is not
    the directory [/]; when the root is [/], it resolves to the root and is
    accepted. *)
Theorem safe_dotdot (proc : Process) :
  Path.isAbsolute (cwd proc) = true ->
  safe proc (lit "..")
  = match Fs.key (ROOT proc) with
    | [] => Returned (ROOT proc)
    | _ :: _ => Thrown (Error PATH_ESCAPES)
    end.
Proof.
  intros Hc. destruct (ROOT_canonical proc Hc) as [Hroot Hrs].
  set (rs := Fs.key (ROOT proc)) in *.
  assert (Hres : Path.resolve (cwd proc) [ROOT proc; lit ".."]
                 = path_of (removelast rs)).
  { rewrite resolve_relative; [| rewrite Hroot; reflexivity | reflexivity].
    unfold path_of. f_equal.
    unfold Path.normalizeString, Path.normalizeSegments. f_equal.
    rewrite Hroot, split_app, normalize_after_root by exact Hrs.
    change (Path.split _) with [lit ".."; []].
    destruct rs as [|r rs'] using rev_ind; [reflexivity|].
    rewrite removelast_last, rev_app_distr. cbn [rev app Path.normalize_acc].
    rewrite forallb_app in Hrs. apply andb_true_iff in Hrs as [_ Hr].
    cbn in Hr. rewrite andb_true_r in Hr.
    unfold valid_name in Hr. rewrite !andb_true_iff, !negb_true_iff in Hr.
    destruct Hr as [_ Hr].
    change (match lit ".." with [] => true | _ => false end || Path.is_dot (lit ".."))
      with false.
    change (Path.is_dotdot (lit "..")) with true. cbv beta match.
    rewrite Hr. cbn. apply rev_involutive. }
  unfold safe. rewrite Hres.
  destruct rs as [|r rs'] using rev_ind.
  - cbn [removelast]. rewrite Hroot. now rewrite startsWith_refl.
  - rewrite removelast_last.
    assert (Hlen : startsWith (path_of rs') (ROOT proc) = false).
    { destruct (startsWith (path_of rs') (ROOT proc)) eqn:E; [|reflexivity].
      apply startsWith_length in E. rewrite Hroot in E.
      rewrite forallb_app in Hrs. apply andb_true_iff in Hrs as [_ Hr].
      pose proof (length_path_of_snoc rs' r Hr). lia. }
    rewrite Hlen. destruct (rs' ++ [r]) eqn:E; [now destruct rs'|reflexivity].
Qed.

Lemma safe_dotdot_witness :
  safe app_process (lit "..") = Thrown (Error PATH_ESCAPES).
Proof.
  exact (safe_dotdot app_process eq_refl).
Defined.

(* ===================================================================== *)
(** ** Rejected paths *)
(* ===================================================================== *)

(** X5: when [safe] rejects any path argument of a call (for [rename]:
    the source or the destination), the call throws the error of [safe]
    and the file tree is left as it was: nothing is read, written, moved
    or removed. *)
Theorem rejected_path_changes_nothing (proc : Process) (now : Z) (c : call)
    (fs : FileSystem) (rel : jsstring) (e : error) :
  In rel (paths c) ->
  safe proc rel = Thrown e ->
  execute proc now c fs = (Thrown (Error PATH_ESCAPES), fs).
Proof.
  intros Hin Hrel. pose proof (safe_thrown _ _ _ Hrel) as ->.
  destruct c as [a|a|a|a|a|a];
    try (destruct Hin as [<-|[]]; now apply execute_rejected).
  cbn in Hin. destruct Hin as [<-|[<-|[]]]; [now apply execute_rejected|].
  cbn [execute]. unfold rename.execute, bind.
  destruct (safe proc (rename.from a)) as [src|e'] eqn:Hfrom.
  - rewrite Hrel. reflexivity.
  - now rewrite (safe_thrown _ _ _ Hfrom).
Qed.

Lemma rejected_path_changes_nothing_witness :
  execute app_process 9
    (Rename {| rename.from := lit "docs/note.txt";
               rename.to := lit "../elsewhere.txt" |}) app_tree
  = (Thrown (Error PATH_ESCAPES), app_tree).
Proof.
  apply (rejected_path_changes_nothing app_process 9 _ app_tree
           (lit "../elsewhere.txt") (Error PATH_ESCAPES));
    [right; left; reflexivity | reflexivity].
Defined.

(* ===================================================================== *)
(** ** [rm] *)
(* ===================================================================== *)

Lemma lookup_touch_ne (t : Z) (k k' : list jsstring) (fs : FileSystem) :
  k <> k' -> Fs.touch t k fs !! k' = fs !! k'.
Proof. intros H. unfold Fs.touch. now rewrite lookup_alter_ne. Qed.

Lemma lookup_touch_eq (t : Z) (k : list jsstring) (fs : FileSystem) :
  Fs.touch t k fs !! k = Fs.set_mtime t <$> fs !! k.
Proof. unfold Fs.touch. now rewrite lookup_alter_eq. Qed.



(** *** The checks of a path *)

Lemma fault_None (fs : FileSystem) (p : jsstring) :
  Fs.fault fs p = None ->
  Fs.check_arg p = None /\ Fs.check_length p = None
  /\ Fs.walk fs [] (Fs.parent (Fs.key p)) = None
  /\ Fs.check_name (Fs.key p) = None.
Proof.
  unfold Fs.fault. cbn [Fs.first_error].
  destruct (Fs.check_arg p); [discriminate|].
  destruct (Fs.check_length p); [discriminate|].
  destruct (Fs.walk fs [] _); [discriminate|].
  destruct (Fs.check_name _); [discriminate|]. auto.
Qed.

(** A walk that succeeds went through directories only. *)
Lemma walk_None (fs : FileSystem) (rest : list jsstring) :
  forall pre : list jsstring,
    Fs.walk fs pre rest = None ->
    forall i : nat, (1 <= i <= length rest)%nat ->
                    Fs.is_dir fs (pre ++ take i rest) = true.
Proof.
  induction rest as [|s rest IH]; intros pre H i Hi; [cbn in Hi; lia|].
  cbn [Fs.walk] in H.
  destruct (fs !! (pre ++ [s])) as [[c t|t]|] eqn:E;
    [discriminate | | discriminate].
  destruct i as [|[|i]]; [lia | |].
  - change (take 1 (s :: rest)) with [s]. unfold Fs.is_dir. now rewrite E.
  - cbn [take]. specialize (IH _ H (S i)). rewrite <- app_assoc in IH.
    apply IH. cbn in Hi. lia.
Qed.

(** A walk along names that fit fails with [ENOENT], or with [ENOTDIR] at
    a regular file. *)
Lemma walk_Some (fs : FileSystem) (rest : list jsstring) :
  forall (pre : list jsstring) (e : errcode),
    forallb Fs.fits rest = true ->
    Fs.walk fs pre rest = Some e ->
    e = ENOENT
    \/ (e = ENOTDIR
        /\ exists i : nat, (1 <= i <= length rest)%nat
                           /\ Fs.is_file fs (pre ++ take i rest) = true).
Proof.
  induction rest as [|s rest IH]; intros pre e Hfits H; [discriminate|].
  cbn [forallb] in Hfits. apply andb_true_iff in Hfits as [Hs Hfits].
  cbn [Fs.walk] in H.
  destruct (fs !! (pre ++ [s])) as [[c t|t]|] eqn:E.
  - injection H as <-. right. split; [reflexivity|].
    exists 1%nat. split; [cbn; lia|].
    change (take 1 (s :: rest)) with [s]. unfold Fs.is_file. now rewrite E.
  - destruct (IH _ _ Hfits H) as [->|[-> (i & Hi & Hf)]]; [now left|].
    right. split; [reflexivity|]. exists (S i). split; [cbn; lia|].
    cbn [take]. now rewrite <- app_assoc in Hf.
  - rewrite Hs in H. injection H as <-. now left.
Qed.

Lemma fits_parent (k : list jsstring) :
  forallb Fs.fits k = true -> forallb Fs.fits (Fs.parent k) = true.
Proof.
  unfold Fs.parent. induction k as [|s k IH]; [reflexivity|].
  cbn [forallb]. intros H. apply andb_true_iff in H as [Hs Hk].
  destruct k as [|s' k]; [reflexivity|].
  change (removelast (s :: s' :: k)) with (s :: removelast (s' :: k)).
  cbn [forallb]. rewrite Hs. now apply IH.
Qed.

Lemma fits_check_name (k : list jsstring) :
  forallb Fs.fits k = true -> Fs.check_name k = None.
Proof.
  unfold Fs.check_name. intros H.
  destruct (last k) as [name|] eqn:E; [|reflexivity].
  apply last_Some in E as [k' ->].
  rewrite forallb_app in H. apply andb_true_iff in H as [_ H].
  cbn in H. now destruct (Fs.fits name).
Qed.

Lemma take_parent (k : list jsstring) (i : nat) :
  (i <= length (Fs.parent k))%nat -> take i (Fs.parent k) = take i k.
Proof.
  unfold Fs.parent. rewrite removelast_firstn_len. intros Hi.
  rewrite length_take in Hi. rewrite take_take. f_equal. lia.
Qed.

Lemma length_parent (k : list jsstring) :
  length (Fs.parent k) = pred (length k).
Proof.
  unfold Fs.parent. rewrite removelast_firstn_len, length_take. lia.
Qed.

(** For a valid path the only check that can fail is the walk to its
    directory. *)
Lemma fault_valid (fs : FileSystem) (p : jsstring) :
  Fs.valid p = true -> Fs.fault fs p = Fs.walk fs [] (Fs.parent (Fs.key p)).
Proof.
  intros Hv. unfold Fs.fault. cbn [Fs.first_error].
  rewrite (valid_check_arg p Hv), (valid_check_length p Hv),
    (fits_check_name _ (valid_fits p Hv)).
  now destruct (Fs.walk fs [] _).
Qed.

(** What is thrown for a valid path at which nothing is found: [ENOENT],
    or [ENOTDIR] when a regular file is on the way. *)
Lemma missing_valid (fs : FileSystem) (p : jsstring) :
  Fs.valid p = true ->
  (Fs.missing fs p = FsError ENOENT \/ Fs.missing fs p = FsError ENOTDIR)
  /\ (Fs.through_file fs (Fs.key p) = false -> Fs.missing fs p = FsError ENOENT).
Proof.
  intros Hv. unfold Fs.missing. rewrite (fault_valid fs p Hv).
  destruct (Fs.walk fs [] (Fs.parent (Fs.key p))) as [e|] eqn:E;
    [|split; [now left | reflexivity]].
  destruct (walk_Some fs _ [] e (fits_parent _ (valid_fits p Hv)) E)
    as [->|[-> (i & Hi & Hf)]]; [split; [now left | reflexivity]|].
  split; [now right|]. intros Hthrough. exfalso.
  cbn [app] in Hf. rewrite take_parent in Hf by lia.
  rewrite length_parent in Hi.
  unfold Fs.through_file in Hthrough.
  assert (Hex : existsb (fun i => Fs.is_file fs (take i (Fs.key p)))
                  (seq 0 (length (Fs.key p))) = true).
  { apply existsb_exists. exists i. split; [apply in_seq; lia | exact Hf]. }
  congruence.
Qed.



Lemma lookup_prune (k k' : list jsstring) (fs : FileSystem) :
  Fs.prune k fs !! k' = if Fs.under k k' then None else fs !! k'.
Proof.
  unfold Fs.prune. destruct (Fs.under k k') eqn:E.
  - apply map_lookup_filter_None_2. right. intros x _. cbn. now rewrite E.
  - destruct (fs !! k') as [x|] eqn:Ex.
    + now apply map_lookup_filter_Some_2.
    + apply map_lookup_filter_None_2. now left.
Qed.



(* ===================================================================== *)
(** ** [mkdir] *)
(* ===================================================================== *)

Lemma keeps_refl (fs : FileSystem) : keeps fs fs.
Proof. split; auto. Qed.

Lemma keeps_trans (fs fs1 fs2 : FileSystem) :
  keeps fs fs1 -> keeps fs1 fs2 -> keeps fs fs2.
Proof. intros [H1 H2] [H3 H4]. split; eauto. Qed.

(** Creating a directory at a free key, below a key that is no regular
    file. *)
Lemma keeps_create (now : Z) (pre k : list jsstring) (fs : FileSystem) :
  fs !! k = None -> Fs.is_file fs pre = false ->
  keeps fs (<[k := Dir now]> (Fs.touch now pre fs)).
Proof.
  intros Hk Hpre. split.
  - intros k' c t H. rewrite lookup_insert_ne by congruence.
    rewrite lookup_touch_ne; [exact H|].
    intros <-. unfold Fs.is_file in Hpre. now rewrite H in Hpre.
  - intros k' H. apply is_dir_insert_Dir. now rewrite is_dir_touch.
Qed.

Lemma mkdirp_keeps (now : Z) (rest : list jsstring) :
  forall (pre : list jsstring) (fs : FileSystem),
    Fs.is_file fs pre = false ->
    keeps fs (Fs.mkdirp now pre rest fs).2.
Proof.
  induction rest as [|s rest IH]; intros pre fs Hpre; cbn [Fs.mkdirp].
  - apply keeps_refl.
  - destruct (fs !! (pre ++ [s])) as [[c t|t]|] eqn:E.
    + apply keeps_refl.
    + apply IH. unfold Fs.is_file. now rewrite E.
    + destruct (Fs.fits s); [|apply keeps_refl].
      eapply keeps_trans; [apply (keeps_create now pre (pre ++ [s])); assumption|].
      apply IH. unfold Fs.is_file. now rewrite lookup_insert_eq.
Qed.

(** Where a node can be created, what will hold it is no regular file. *)
Lemma creatable_parent (fs : FileSystem) (p : jsstring) :
  Fs.is_dir fs [] = true -> Fs.creatable fs p = true ->
  Fs.is_dir fs (Fs.parent (Fs.key p)) = true.
Proof.
  intros Hroot. unfold Fs.creatable.
  destruct (Fs.fault fs p) eqn:E; [discriminate|]. intros _.
  apply fault_None in E as (_ & _ & Hwalk & _).
  destruct (Fs.parent (Fs.key p)) as [|s k] eqn:Ek; [exact Hroot|].
  rewrite <- (firstn_all (s :: k)).
  apply (walk_None fs (s :: k) [] Hwalk). cbn. lia.
Qed.

(** X9: in a tree whose directory [/] exists, [mkdir] never removes or
    changes a regular file and never removes a directory, whatever the
    path and the value of [recursive], and whether it returns or throws. *)
Theorem mkdir_keeps_tree (proc : Process) (now : Z) (a : mkdir.Args)
    (fs : FileSystem) :
  Fs.is_dir fs [] = true ->
  keeps fs (mkdir.execute proc now a fs).2.
Proof.
  intros Hroot. unfold mkdir.execute, bind.
  destruct (safe proc (mkdir.path a)) as [abs|e]; cbn [lift ret throw];
    [|apply keeps_refl].
  assert (Hk : keeps fs (Fs.mkdir now abs (default true (mkdir.recursive a)) fs).2).
  { unfold Fs.mkdir. destruct (default true (mkdir.recursive a)).
    - assert (Hp : keeps fs (Fs.mkdirp now [] (Fs.key abs) fs).2).
      { apply mkdirp_keeps. unfold Fs.is_file.
        apply is_dir_Some in Hroot as [t ->]. reflexivity. }
      destruct (fs !! Fs.key abs); [exact Hp|].
      destruct (Fs.first_error _); [apply keeps_refl | exact Hp].
    - destruct (fs !! Fs.key abs) eqn:E; [apply keeps_refl|].
      destruct (Fs.creatable fs abs) eqn:Ep; [|apply keeps_refl].
      cbn [snd]. apply keeps_create; [exact E|].
      apply (creatable_parent fs abs Hroot) in Ep.
      apply is_dir_Some in Ep as [t Ht]. unfold Fs.is_file. now rewrite Ht. }
  destruct (Fs.mkdir now abs _ fs) as [[u|e] fs1]; exact Hk.
Qed.

Lemma mkdir_keeps_tree_witness :
  keeps app_tree
    (mkdir.execute app_process 9
       {| mkdir.path := lit "docs/note.txt/x"; mkdir.recursive := None |}
       app_tree).2.
Proof.
  apply (mkdir_keeps_tree app_process 9 _ app_tree). reflexivity.
Defined.





(* ===================================================================== *)
(** ** Appending and reading bytes *)
(* ===================================================================== *)

(** The encoding of a well-formed string followed by any string is the
    encoding of the first followed by the encoding of the second, and two
    well-formed strings make a well-formed string. *)
Lemma utf8_encode_app (s1 s2 : jsstring) :
  Utf8.isWellFormed s1 = true ->
  Utf8.encode (s1 ++ s2) = Utf8.encode s1 ++ Utf8.encode s2
  /\ (Utf8.isWellFormed s2 = true -> Utf8.isWellFormed (s1 ++ s2) = true).
Proof.
  remember (length s1) as n eqn:Hn.
  revert s1 Hn. induction n as [n IH] using lt_wf_ind. intros s1 Hn Hwf.
  destruct s1 as [|u t]; [now split|].
  cbn [Utf8.isWellFormed] in Hwf. cbn [app Utf8.encode Utf8.isWellFormed].
  destruct (Utf8.is_high u) eqn:Hh.
  - destruct t as [|v t']; [discriminate|].
    apply andb_true_iff in Hwf as [Hl Hwf]. cbn [app]. rewrite Hl.
    destruct (IH (length t')) with (s1 := t') as [He Hw];
      [cbn in Hn; lia | reflexivity | exact Hwf |].
    rewrite He. split.
    + unfold Utf8.is_high in Hh.
      replace (u <? 128) with false by (symmetry; apply Z.ltb_ge; lia).
      replace (u <? 2048) with false by (symmetry; apply Z.ltb_ge; lia).
      now rewrite <- app_assoc.
    + intros H2. now rewrite Hw.
  - destruct (IH (length t)) with (s1 := t) as [He Hw];
      [cbn in Hn; lia | reflexivity |
       repeat (apply andb_true_iff in Hwf as [Hwf ?]); assumption |].
    rewrite He. split.
    + destruct (u <? 128); [reflexivity|].
      destruct (u <? 2048); [now rewrite <- app_assoc|].
      destruct (Utf8.is_low u); now rewrite <- app_assoc.
    + intros H2. rewrite Hw by exact H2.
      repeat (apply andb_true_iff in Hwf as [Hwf ?]).
      now rewrite Hwf, H0, H1.
Qed.







(* ===================================================================== *)
(** ** The two variants of the shapes *)
(* ===================================================================== *)

(** The strings the plain enumeration accepts. *)
Lemma plain_enum (s : jsstring) :
  z.enum ["utf8"; "base64"]%string (VString s)
  = if str_eqb s (lit "utf8") || str_eqb s (lit "base64") then Some s else None.
Proof. unfold z.enum. cbn [existsb]. now rewrite orb_false_r. Qed.

(** What the scalar [Encoding] makes of a string. *)
Lemma alias_enum (s : jsstring) :
  FsMcp.Encoding (VString s)
  = if str_eqb s (lit "utf8") then Some (lit "utf8")
    else if str_eqb s (lit "utf-8") then Some (lit "utf8")
    else if str_eqb s (lit "base64") then Some (lit "base64")
    else None.
Proof.
  unfold FsMcp.Encoding, z.default, z.transform, z.enum, fmap, option_fmap,
    option_map.
  cbn [existsb]. rewrite orb_false_r.
  destruct (str_eqb s (lit "utf8")) eqn:E1;
    destruct (str_eqb s (lit "utf-8")) eqn:E2;
    destruct (str_eqb s (lit "base64")) eqn:E3;
    cbn [orb]; cbv beta match; rewrite ?E2; try reflexivity.
  - now apply str_eqb_eq in E1 as ->.
  - now apply str_eqb_eq in E1 as ->.
  - now apply str_eqb_eq in E3 as ->.
Qed.

Lemma alias_undefined : FsMcp.Encoding VUndefined = Some (lit "utf8").
Proof. reflexivity. Qed.

(** The encoding of the plain shapes against the one of the alias-friendly
    shapes, for every raw value. *)
Lemma plain_encoding_alias (v : jsval) (e : jsstring) :
  z.default (VString (lit "utf8")) (z.enum ["utf8"; "base64"]%string) v = Some e ->
  (e = lit "utf8" \/ e = lit "base64")
  /\ exists e', z.optional FsMcp.Encoding v = Some e'
                /\ effective_encoding e' = e.
Proof.
  destruct v as [| |s|b|n]; cbn [z.default z.optional]; try discriminate.
  - intros [= <-]. split; [now left|]. exists None. now split.
  - rewrite plain_enum, alias_enum.
    destruct (str_eqb s (lit "utf8")) eqn:E1.
    { apply str_eqb_eq in E1 as ->. intros [= <-]. split; [now left|].
      exists (Some (lit "utf8")). now split. }
    destruct (str_eqb s (lit "base64")) eqn:E3; [|discriminate].
    apply str_eqb_eq in E3 as ->. intros [= <-]. split; [now right|].
    exists (Some (lit "base64")). now split.
Qed.

Lemma readFile_effective (proc : Process) (p : jsstring) (e : option jsstring) :
  readFile.execute proc {| readFile.path := p; readFile.encoding := e |}
  = readFile.execute proc
      {| readFile.path := p; readFile.encoding := Some (effective_encoding e) |}.
Proof. reflexivity. Qed.

Lemma writeFile_effective (proc : Process) (now : Z) (p d : jsstring)
    (e : option jsstring) (a : option bool) :
  writeFile.execute proc now
    {| writeFile.path := p; writeFile.data := d;
       writeFile.encoding := e; writeFile.append := a |}
  = writeFile.execute proc now
      {| writeFile.path := p; writeFile.data := d;
         writeFile.encoding := Some (effective_encoding e);
         writeFile.append := a |}.
Proof. reflexivity. Qed.

Lemma refines_readFile (proc : Process) (o : rawArgs) (fs : FileSystem) :
  is_Some (FsSpec.ReadFileShape o) ->
  invoke FsMcp.Read (readFile.execute proc) o fs
  = invoke FsSpec.ReadFileShape (readFile.execute proc) o fs.
Proof.
  unfold invoke, FsSpec.ReadFileShape, FsMcp.Read, z.describe.
  destruct (z.string (prop o "path")) as [p|]; [|now intros [a Ha]].
  destruct (z.default _ _ (prop o "encoding")) as [e|] eqn:E;
    [|now intros [a Ha]].
  intros _. destruct (plain_encoding_alias _ _ E) as (_ & e' & -> & He).
  rewrite readFile_effective, He. reflexivity.
Qed.

Lemma refines_writeFile (proc : Process) (now : Z) (o : rawArgs) (fs : FileSystem) :
  is_Some (FsSpec.WriteFileShape o) ->
  invoke FsMcp.Write (writeFile.execute proc now) o fs
  = invoke FsSpec.WriteFileShape (writeFile.execute proc now) o fs.
Proof.
  unfold invoke, FsSpec.WriteFileShape, FsMcp.Write, z.describe.
  destruct (z.string (prop o "path")) as [p|]; [|now intros [a Ha]].
  destruct (prop o "data") as [| |d|b|n]; cbn [z.string z.default];
    try now intros [a Ha].
  destruct (z.default _ _ (prop o "encoding")) as [e|] eqn:E;
    [|now intros [a Ha]].
  destruct (plain_encoding_alias _ _ E) as (_ & e' & -> & He).
  destruct (prop o "append") as [| |s|b|n]; cbn; try now intros [a Ha].
  - intros _. rewrite writeFile_effective, He. reflexivity.
  - intros _. rewrite writeFile_effective, He. reflexivity.
Qed.

Lemma refines_mkdir (proc : Process) (now : Z) (o : rawArgs) (fs : FileSystem) :
  is_Some (FsSpec.MkdirShape o) ->
  invoke FsMcp.Mkdir (mkdir.execute proc now) o fs
  = invoke FsSpec.MkdirShape (mkdir.execute proc now) o fs.
Proof.
  unfold invoke, FsSpec.MkdirShape, FsMcp.Mkdir, z.describe.
  destruct (z.string (prop o "path")) as [p|]; [|now intros [a Ha]].
  destruct (prop o "recursive") as [| |s|b|n]; cbn; try now intros [a Ha].
  all: reflexivity.
Qed.

Lemma refines_rm (proc : Process) (now : Z) (o : rawArgs) (fs : FileSystem) :
  is_Some (FsSpec.RmShape o) ->
  invoke FsMcp.Remove (rm.execute proc now) o fs
  = invoke FsSpec.RmShape (rm.execute proc now) o fs.
Proof.
  unfold invoke, FsSpec.RmShape, FsMcp.Remove, z.describe.
  destruct (z.string (prop o "path")) as [p|]; [|now intros [a Ha]].
  destruct (prop o "recursive") as [| |s|b|n]; cbn; try now intros [a Ha].
  all: reflexivity.
Qed.

(** X15: the alias-friendly tool set extends the plain one.  The two sets
    hold the same six tool names in the same order, and whatever raw
    arguments a plain tool accepts, the alias-friendly tool of that name
    accepts too and then does exactly what the plain tool does. *)
Theorem alias_tools_extend_plain_tools :
  Forall2 (fun plain alias =>
             Tool.name plain = Tool.name alias
             /\ forall proc now o fs,
                  is_Some (Tool.parameters plain o) ->
                  Tool.run alias proc now o fs = Tool.run plain proc now o fs)
    FsSpec_tools FsMcp_tools.
Proof.
  unfold FsSpec_tools, FsMcp_tools, Tool.run.
  repeat constructor; cbn [Tool.parameters Tool.execute]; intros proc now o fs H.
  - apply refines_readFile, H.
  - apply refines_writeFile, H.
  - apply refines_mkdir, H.
  - apply refines_rm, H.
Qed.

Lemma alias_tools_extend_plain_tools_witness :
  Tool.run {| Tool.name := "rm";
              Tool.description := "Delete file or dir.";
              Tool.parameters := FsMcp.Remove;
              Tool.execute := rm.execute |}
    app_process 9 {[ "path"%string := VString (lit "docs") ]} app_tree
  = Tool.run {| Tool.name := "rm";
                Tool.description := "Delete a file or directory.";
                Tool.parameters := FsSpec.RmShape;
                Tool.execute := rm.execute |}
      app_process 9 {[ "path"%string := VString (lit "docs") ]} app_tree.
Proof.
  pose proof alias_tools_extend_plain_tools as H.
  unfold FsSpec_tools, FsMcp_tools in H.
  do 5 (apply Forall2_cons_1 in H as [_ H]).
  apply Forall2_cons_1 in H as [[_ H] _].
  apply H. eexists. reflexivity.
Defined.

(** X16: after parsing against the shapes of either variant, the encoding
    an executor works with is [utf8] or [base64], whatever the raw
    arguments were; so the test [encoding === 'utf8'] of [readFile] and
    [writeFile] takes its other branch for [base64] only. *)
Theorem parsed_encoding (o : rawArgs) :
  (forall a, FsSpec.ReadFileShape o = Some a \/ FsMcp.Read o = Some a ->
             effective_encoding (readFile.encoding a) = lit "utf8"
             \/ effective_encoding (readFile.encoding a) = lit "base64")
  /\ (forall a, FsSpec.WriteFileShape o = Some a \/ FsMcp.Write o = Some a ->
                effective_encoding (writeFile.encoding a) = lit "utf8"
                \/ effective_encoding (writeFile.encoding a) = lit "base64").
Proof.
  assert (Hplain : forall v e,
             z.default (VString (lit "utf8")) (z.enum ["utf8"; "base64"]%string) v
             = Some e -> e = lit "utf8" \/ e = lit "base64").
  { intros v e H. now apply plain_encoding_alias in H as [H _]. }
  assert (Halias : forall v e,
             z.optional FsMcp.Encoding v = Some e ->
             effective_encoding e = lit "utf8" \/ effective_encoding e = lit "base64").
  { intros [| |s|b|n] e; cbn [z.optional]; try discriminate.
    - intros [= <-]. now left.
    - rewrite alias_enum.
      destruct (str_eqb s (lit "utf8")); [intros [= <-]; now left|].
      destruct (str_eqb s (lit "utf-8")); [intros [= <-]; now left|].
      destruct (str_eqb s (lit "base64")); [intros [= <-]; now right|discriminate]. }
  split; intros a [H|H]; revert H.
  - unfold FsSpec.ReadFileShape, z.describe.
    destruct (z.string (prop o "path")); [|discriminate].
    destruct (z.default _ _ (prop o "encoding")) eqn:E; [|discriminate].
    intros [= <-]. exact (Hplain _ _ E).
  - unfold FsMcp.Read, z.describe.
    destruct (z.string (prop o "path")); [|discriminate].
    destruct (z.optional _ (prop o "encoding")) eqn:E; [|discriminate].
    intros [= <-]. exact (Halias _ _ E).
  - unfold FsSpec.WriteFileShape, z.describe.
    destruct (z.string (prop o "path")); [|discriminate].
    destruct (z.string (prop o "data")); [|discriminate].
    destruct (z.default _ _ (prop o "encoding")) eqn:E; [|discriminate].
    destruct (z.optional _ (prop o "append")); [|discriminate].
    intros [= <-]. exact (Hplain _ _ E).
  - unfold FsMcp.Write, z.describe.
    destruct (z.string (prop o "path")); [|discriminate].
    destruct (z.default _ z.string (prop o "data")); [|discriminate].
    destruct (z.optional FsMcp.Encoding (prop o "encoding")) eqn:E; [|discriminate].
    destruct (z.optional _ (prop o "append")); [|discriminate].
    intros [= <-]. exact (Halias _ _ E).
Qed.

Lemma parsed_encoding_witness :
  effective_encoding (Some (lit "utf8")) = lit "utf8"
  \/ effective_encoding (Some (lit "utf8")) = lit "base64".
Proof.
  apply (proj1 (parsed_encoding alias_args)
           {| readFile.path := lit "a.txt"; readFile.encoding := Some (lit "utf8") |}).
  right. reflexivity.
Defined.

(** X17: arguments left out take the defaults of the source, in both
    variants alike: [readFile] decodes as [utf8], [writeFile] encodes as
    [utf8] and overwrites, [mkdir] is recursive, [rm] is not, and [ls]
    lists [.]. *)
Theorem omitted_arguments (proc : Process) (now : Z) (o : rawArgs)
    (p d : jsstring) (fs : FileSystem) :
  prop o "path" = VString p ->
  prop o "data" = VString d ->
  prop o "encoding" = VUndefined ->
  prop o "append" = VUndefined ->
  prop o "recursive" = VUndefined ->
  let read := readFile.execute proc
                {| readFile.path := p; readFile.encoding := Some (lit "utf8") |} fs in
  let write := writeFile.execute proc now
                 {| writeFile.path := p; writeFile.data := d;
                    writeFile.encoding := Some (lit "utf8");
                    writeFile.append := Some false |} fs in
  let make := mkdir.execute proc now
                {| mkdir.path := p; mkdir.recursive := Some true |} fs in
  let remove := rm.execute proc now
                  {| rm.path := p; rm.recursive := Some false |} fs in
  (invoke FsSpec.ReadFileShape (readFile.execute proc) o fs = read
   /\ invoke FsMcp.Read (readFile.execute proc) o fs = read)
  /\ (invoke FsSpec.WriteFileShape (writeFile.execute proc now) o fs = write
      /\ invoke FsMcp.Write (writeFile.execute proc now) o fs = write)
  /\ (invoke FsSpec.MkdirShape (mkdir.execute proc now) o fs = make
      /\ invoke FsMcp.Mkdir (mkdir.execute proc now) o fs = make)
  /\ (invoke FsSpec.RmShape (rm.execute proc now) o fs = remove
      /\ invoke FsMcp.Remove (rm.execute proc now) o fs = remove)
  /\ (invoke FsSpec.LsShape (ls.execute proc) (delete "path"%string o) fs
      = ls.execute proc {| ls.path := Some (lit ".") |} fs
      /\ invoke FsMcp.Ls (ls.execute proc) (delete "path"%string o) fs
         = ls.execute proc {| ls.path := Some (lit ".") |} fs).
Proof.
  intros Hp Hd He Ha Hr.
  assert (Hls : prop (delete "path"%string o) "path" = VUndefined).
  { unfold prop. now rewrite lookup_delete_eq. }
  unfold invoke, FsSpec.ReadFileShape, FsMcp.Read, FsSpec.WriteFileShape,
    FsMcp.Write, FsSpec.MkdirShape, FsMcp.Mkdir, FsSpec.RmShape, FsMcp.Remove,
    FsSpec.LsShape, FsMcp.Ls, z.describe.
  rewrite Hp, Hd, He, Ha, Hr, Hls. cbn zeta. repeat split.
Qed.

Lemma omitted_arguments_witness :
  invoke FsMcp.Remove (rm.execute app_process 9)
    {[ "path"%string := VString (lit "docs"); "data"%string := VString [] ]} app_tree
  = rm.execute app_process 9
      {| rm.path := lit "docs"; rm.recursive := Some false |} app_tree.
Proof.
  refine (proj2 (proj1 (proj2 (proj2 (proj2
            (omitted_arguments app_process 9 _ (lit "docs") [] app_tree
               _ _ _ _ _)))))); reflexivity.
Defined.

(* ===================================================================== *)
(** ** What [ls] lists *)
(* ===================================================================== *)

Lemma strip_Some (pre k rest : list jsstring) :
  Fs.strip pre k = Some rest -> k = pre ++ rest.
Proof.
  revert k. induction pre as [|a pre IH]; intros k; cbn.
  - now intros [= ->].
  - destruct k as [|b k]; [discriminate|].
    destruct (str_eqb a b) eqn:E; [|discriminate].
    apply str_eqb_eq in E as ->. intros H. now rewrite (IH _ H).
Qed.

Lemma strip_app (pre rest : list jsstring) : Fs.strip pre (pre ++ rest) = Some rest.
Proof.
  induction pre as [|a pre IH]; cbn; [reflexivity|]. now rewrite str_eqb_refl.
Qed.

(** Every name that [readdir] returns is the last piece of the key of a
    node. *)
Lemma children_lookup (fs : FileSystem) (k : list jsstring) (n : jsstring) :
  n ∈ Fs.children fs k -> exists nd, fs !! (k ++ [n]) = Some nd.
Proof.
  unfold Fs.children. rewrite list_elem_of_omap.
  intros ([kn nd] & Hin & Hf). cbn in Hf.
  destruct (Fs.strip k kn) as [[|m [|]]|] eqn:E; try discriminate.
  injection Hf as ->. apply strip_Some in E as ->.
  exists nd. now apply elem_of_map_to_list.
Qed.

Lemma endsWithSlash_name (a n : jsstring) :
  valid_name n = true -> Path.endsWithSlash (a ++ n) = false.
Proof.
  intros Hn. unfold Path.endsWithSlash. rewrite rev_app_distr.
  pose proof (valid_name_nonempty n Hn) as Hne.
  apply valid_name_no_slash in Hn. unfold no_slash in Hn.
  rewrite forallb_forall in Hn.
  destruct (rev n) as [|c r] eqn:E.
  { apply (f_equal (@rev Z)) in E. rewrite rev_involutive in E. now subst. }
  cbn. apply negb_true_iff, Hn, in_rev. rewrite E. now left.
Qed.

(** The path of a child of a canonical directory path. *)
Lemma join_child (abs n : jsstring) :
  canonical abs -> valid_name n = true ->
  Path.join abs n = path_of (Fs.key abs ++ [n]).
Proof.
  intros [Habs Hks] Hn. remember (Fs.key abs) as ks eqn:Eks. clear Eks.
  subst abs.
  pose proof (valid_name_nonempty n Hn) as Hne.
  assert (Hall : forallb valid_name (ks ++ [n]) = true).
  { rewrite forallb_app, Hks. cbn. now rewrite Hn. }
  assert (Hnorm : Path.normalizeString false (path_of ks ++ CHAR_FORWARD_SLASH :: n)
                  = Path.join_segs (ks ++ [n])).
  { unfold Path.normalizeString, Path.normalizeSegments. f_equal.
    rewrite split_app, normalize_after_root by exact Hks.
    rewrite split_no_slash by now apply valid_name_no_slash.
    rewrite <- (app_nil_r [n]), normalize_acc_valid by (cbn; now rewrite Hn).
    cbn [Path.normalize_acc rev app]. now rewrite rev_involutive. }
  assert (Hend : Path.endsWithSlash (path_of ks ++ CHAR_FORWARD_SLASH :: n) = false).
  { change (path_of ks ++ CHAR_FORWARD_SLASH :: n)
      with (path_of ks ++ [CHAR_FORWARD_SLASH] ++ n).
    rewrite app_assoc. now apply endsWithSlash_name. }
  pose proof (join_segs_nonempty (ks ++ [n]) Hall) as Hj.
  assert (Hnormalize : Path.normalize (path_of ks ++ CHAR_FORWARD_SLASH :: n)
                       = path_of (ks ++ [n])).
  { assert (Habsol : Path.isAbsolute (path_of ks ++ CHAR_FORWARD_SLASH :: n) = true)
      by reflexivity.
    remember (path_of ks ++ CHAR_FORWARD_SLASH :: n) as q eqn:Eq.
    unfold Path.normalize. destruct q as [|x q]; [discriminate Eq|].
    cbv zeta. rewrite Habsol. cbn [negb]. rewrite Hnorm, Hend.
    destruct (Path.join_segs (ks ++ [n])) as [|y r] eqn:Ej;
      [exfalso; apply Hj; [now destruct ks | reflexivity]|].
    unfold path_of. rewrite Ej. reflexivity. }
  destruct n as [|c n']; [easy|]. exact Hnormalize.
Qed.

Lemma basename_path_of (ks : list jsstring) (n : jsstring) :
  forallb valid_name (ks ++ [n]) = true ->
  Path.basename (path_of (ks ++ [n])) = n.
Proof.
  intros H. unfold Path.basename.
  change (filter _ (Path.split ?p)) with (Fs.key p).
  rewrite key_path_of by exact H. now rewrite rev_app_distr.
Qed.

Lemma mapM_all {A B} (f : A -> FS B) (P : A -> B -> Prop) (xs : list A)
    (fs : FileSystem) :
  Forall (fun x => exists y, f x fs = (Returned y, fs) /\ P x y) xs ->
  exists l, mapM f xs fs = (Returned l, fs) /\ Forall2 P xs l.
Proof.
  induction 1 as [|x xs (y & Hy & HP) _ (l & Hl & HF)]; cbn [mapM].
  - exists []. split; [reflexivity | constructor].
  - exists (y :: l). unfold bind. rewrite Hy, Hl. split; [reflexivity|].
    now constructor.
Qed.



(* ===================================================================== *)
(** ** Canonical paths are fixed points *)
(* ===================================================================== *)

Lemma normalize_canonical (ks : list jsstring) :
  forallb valid_name ks = true ->
  Path.normalizeString false (path_of ks ++ [CHAR_FORWARD_SLASH])
  = Path.join_segs ks.
Proof.
  intros H. unfold Path.normalizeString, Path.normalizeSegments. f_equal.
  change (path_of ks ++ [CHAR_FORWARD_SLASH])
    with (path_of ks ++ CHAR_FORWARD_SLASH :: []).
  rewrite split_app, normalize_after_root by exact H.
  change (Path.split []) with [[] : jsstring].
  rewrite normalize_acc_empty. cbn [Path.normalize_acc]. apply rev_involutive.
Qed.

(** An absolute last argument decides [path.resolve] on its own; a
    canonical one is returned as it is. *)
Lemma resolve_canonical_last (cwd : jsstring) (args : list jsstring) (a : jsstring) :
  canonical a -> Path.resolve cwd (args ++ [a]) = a.
Proof.
  intros [Ha Hks]. remember (Fs.key a) as ks eqn:Eks. clear Eks. subst a.
  assert (Hloop : forall more,
             Path.resolve_loop (path_of ks :: more) []
             = (path_of ks ++ [CHAR_FORWARD_SLASH], true)).
  { intros more. reflexivity. }
  unfold Path.resolve.
  change (cwd :: args ++ [path_of ks]) with ((cwd :: args) ++ [path_of ks]).
  rewrite rev_app_distr. cbn [rev app]. rewrite Hloop. cbn [negb].
  now rewrite normalize_canonical.
Qed.

(** X19: [safe] is idempotent: a path it returned is accepted when it is
    passed again, and returned unchanged. *)
Theorem safe_idempotent (proc : Process) (rel abs : jsstring) :
  Path.isAbsolute (cwd proc) = true ->
  safe proc rel = Returned abs ->
  safe proc abs = Returned abs.
Proof.
  intros Hc H. pose proof (safe_returned _ _ _ H) as [Habs Hstart].
  assert (Hcan : canonical abs) by (rewrite Habs; now apply resolve_canonical).
  unfold safe.
  change [ROOT proc; abs] with ([ROOT proc] ++ [abs]).
  rewrite (resolve_canonical_last (cwd proc) [ROOT proc] abs Hcan).
  now rewrite Hstart.
Qed.

Lemma safe_idempotent_witness :
  safe app_process (lit "/srv/app/docs") = Returned (lit "/srv/app/docs").
Proof.
  apply (safe_idempotent app_process (lit "x/../docs/.")); reflexivity.
Defined.

Lemma resolve_from_cwd (cs : list jsstring) (rel : jsstring) :
  Path.isAbsolute rel = false ->
  Path.resolve (path_of cs) [rel] = Path.resolve (path_of cs) [path_of cs; rel].
Proof.
  intros H. unfold Path.resolve. cbn [rev app Path.resolve_loop].
  destruct rel as [|c r]; [reflexivity|]. now rewrite H.
Qed.

(** X20: the root of a process whose working directory is a canonical
    path.  With [FS_ROOT] unset the root is the working directory; with
    [FS_ROOT] set to a canonical path it is that path; with [FS_ROOT] set
    to valid names joined by separators (the empty string included) it is
    the directory of these names below the working directory.  In each
    case the root is a canonical path. *)
Theorem ROOT_of_process (proc : Process) :
  canonical (cwd proc) ->
  canonical (ROOT proc)
  /\ (FS_ROOT proc = None -> ROOT proc = cwd proc)
  /\ (forall r, FS_ROOT proc = Some r -> canonical r -> ROOT proc = r)
  /\ (forall ks, FS_ROOT proc = Some (Path.join_segs ks) ->
                 forallb valid_name ks = true ->
                 ROOT proc = path_of (Fs.key (cwd proc) ++ ks)).
Proof.
  intros Hcan.
  assert (Hc : Path.isAbsolute (cwd proc) = true).
  { destruct Hcan as [-> _]. reflexivity. }
  split; [now apply resolve_canonical|].
  unfold ROOT. split; [|split].
  - intros ->. cbn [default from_option id].
    exact (resolve_canonical_last (cwd proc) [] (cwd proc) Hcan).
  - intros r -> Hr. cbn [default from_option id].
    exact (resolve_canonical_last (cwd proc) [] r Hr).
  - intros ks -> Hks. cbn [default from_option id].
    destruct Hcan as [Hcwd Hcs].
    remember (Fs.key (cwd proc)) as cs eqn:Ecs. clear Ecs. rewrite Hcwd.
    rewrite resolve_from_cwd, resolve_relative;
      [| reflexivity | now apply join_segs_relative ..].
    unfold path_of at 2. f_equal.
    unfold Path.normalizeString, Path.normalizeSegments. f_equal.
    rewrite split_app, normalize_after_root by exact Hcs.
    destruct ks as [|k ks].
    + cbn [Path.join_segs]. change (Path.split []) with [[] : jsstring].
      rewrite normalize_acc_empty. cbn [Path.normalize_acc].
      now rewrite rev_involutive, app_nil_r.
    + pose proof (join_segs_nonempty (k :: ks) Hks) as Hj.
      destruct (Path.join_segs (k :: ks)) as [|c r] eqn:E;
        [exfalso; apply Hj; [discriminate | reflexivity]|].
      rewrite <- E.
      change (Path.join_segs (k :: ks) ++ [CHAR_FORWARD_SLASH])
        with (Path.join_segs (k :: ks) ++ CHAR_FORWARD_SLASH :: []).
      rewrite split_app, split_join_segs;
        [| now apply valid_names_no_slash | discriminate].
      rewrite normalize_acc_valid by exact Hks.
      change (Path.split []) with [[] : jsstring].
      rewrite normalize_acc_empty. cbn [Path.normalize_acc].
      now rewrite rev_app_distr, !rev_involutive.
Qed.

Lemma ROOT_of_process_witness :
  ROOT {| cwd := lit "/srv/app"; FS_ROOT := Some (lit "data/files") |}
  = path_of ([lit "srv"; lit "app"] ++ [lit "data"; lit "files"]).
Proof.
  refine (proj2 (proj2 (proj2
            (ROOT_of_process {| cwd := lit "/srv/app";
                                FS_ROOT := Some (lit "data/files") |} _)))
            [lit "data"; lit "files"] _ _);
    [split; reflexivity | reflexivity | reflexivity].
Defined.

(* ===================================================================== *)
(** ** [rename] of a regular file *)
(* ===================================================================== *)

Lemma under_app (pre rest : list jsstring) : Fs.under pre (pre ++ rest) = true.
Proof. unfold Fs.under. now rewrite strip_app. Qed.

Lemma under_refl (k : list jsstring) : Fs.under k k = true.
Proof. rewrite <- (app_nil_r k) at 2. apply under_app. Qed.

(** The node moved to the destination, and nothing left at the source. *)
Lemma moved_lookup (kf kt : list jsstring) (nd : node) (fs : FileSystem) :
  fs !! kf = Some nd -> Fs.moved kf kt fs !! kt = Some nd.
Proof.
  intros Hf. unfold Fs.moved. apply elem_of_list_to_map_1'.
  - intros y Hy. apply list_elem_of_omap in Hy as ([k n] & Hin & Hk).
    cbn in Hk. destruct (Fs.strip kf k) as [rest|] eqn:E; [|discriminate].
    injection Hk as Hk <-. apply strip_Some in E as ->.
    assert (rest = []) as ->.
    { apply (f_equal length) in Hk. rewrite length_app in Hk.
      destruct rest; [reflexivity | cbn in Hk; lia]. }
    rewrite app_nil_r in Hin. apply elem_of_map_to_list in Hin. congruence.
  - apply list_elem_of_omap. exists (kf, nd). split.
    + now apply elem_of_map_to_list.
    + cbn. rewrite <- (app_nil_r kf) at 2. rewrite strip_app. now rewrite app_nil_r.
Qed.

Lemma moved_lookup_None (kf kt k : list jsstring) (fs : FileSystem) :
  Fs.under kt k = false -> Fs.moved kf kt fs !! k = None.
Proof.
  intros Hu. unfold Fs.moved. apply not_elem_of_list_to_map_1.
  intros Hin. apply list_elem_of_fmap in Hin as ([k' n'] & Hk & Hin). cbn in Hk.
  subst k'. apply list_elem_of_omap in Hin as ([k0 n0] & _ & Hf). cbn in Hf.
  destruct (Fs.strip kf k0) as [rest|]; [|discriminate].
  injection Hf as <- _. now rewrite under_app in Hu.
Qed.



(* ===================================================================== *)
(** ** A call that throws changes nothing *)
(* ===================================================================== *)

(** In a rooted tree nothing exists below a key at which nothing exists. *)
Lemma rooted_absent (fs : FileSystem) (k r : list jsstring) :
  rooted fs = true -> fs !! k = None -> fs !! (k ++ r) = None.
Proof.
  intros Hr Hk. destruct (fs !! (k ++ r)) as [nd|] eqn:E; [|reflexivity].
  destruct r as [|s r]; [rewrite app_nil_r in E; congruence|].
  unfold rooted in Hr. rewrite forallb_forall in Hr.
  specialize (Hr (k ++ s :: r, nd)).
  assert (Hin : In (k ++ s :: r, nd) (map_to_list fs)).
  { apply list_elem_of_In. now apply elem_of_map_to_list. }
  specialize (Hr Hin). cbn [fst] in Hr. rewrite forallb_forall in Hr.
  specialize (Hr (length k)).
  assert (Hlen : In (length k) (seq 0 (length (k ++ s :: r)))).
  { apply in_seq. rewrite length_app. cbn. lia. }
  specialize (Hr Hlen). apply bool_decide_eq_true in Hr.
  rewrite take_app_length in Hr. rewrite Hk in Hr. now destruct Hr.
Qed.

(** From a key below which nothing exists [mkdirp] does not throw, when
    the names fit. *)
Lemma mkdirp_fresh (now : Z) (rest : list jsstring) :
  forall (pre : list jsstring) (fs : FileSystem),
    forallb Fs.fits rest = true ->
    (forall r, r <> [] -> fs !! (pre ++ r) = None) ->
    (Fs.mkdirp now pre rest fs).1 = Returned tt.
Proof.
  induction rest as [|s rest IH]; intros pre fs Hfits Hfree; cbn [Fs.mkdirp];
    [reflexivity|].
  cbn [forallb] in Hfits. apply andb_true_iff in Hfits as [Hs Hfits].
  rewrite (Hfree [s]) by discriminate. rewrite Hs.
  apply IH; [exact Hfits|]. intros r Hr.
  rewrite <- app_assoc. cbn [app].
  rewrite lookup_insert_ne.
  - rewrite lookup_touch_ne; [now apply Hfree|].
    intros E. apply (f_equal length) in E. rewrite length_app in E. cbn in E. lia.
  - intros E. apply (f_equal length) in E. rewrite !length_app in E. cbn in E.
    destruct r; [now apply Hr | cbn in E; lia].
Qed.

Lemma mkdirp_fails_clean (now : Z) (fs : FileSystem) (rest : list jsstring) :
  rooted fs = true ->
  forallb Fs.fits rest = true ->
  forall pre, fails_clean (Fs.mkdirp now pre rest) fs.
Proof.
  intros Hr. induction rest as [|s rest IH]; intros Hfits pre e; cbn [Fs.mkdirp].
  - discriminate.
  - cbn [forallb] in Hfits. apply andb_true_iff in Hfits as [Hs Hfits].
    destruct (fs !! (pre ++ [s])) as [[c t|t]|] eqn:E;
      [reflexivity | now apply IH |].
    rewrite Hs. intros H. exfalso.
    rewrite mkdirp_fresh in H; [discriminate | exact Hfits |].
    intros r Hne. rewrite lookup_insert_ne.
    + rewrite lookup_touch_ne; [now apply rooted_absent|].
      intros E'. apply (f_equal length) in E'. rewrite !length_app in E'.
      cbn in E'. lia.
    + intros E'. apply (f_equal length) in E'. rewrite !length_app in E'.
      destruct r; [now apply Hne | cbn in E'; lia].
Qed.

(** A pure step that may throw, followed by steps that change nothing
    when they throw. *)
Lemma fails_clean_lift {A B} (o : outcome A) (k : A -> FS B) (fs : FileSystem) :
  (forall a, o = Returned a -> fails_clean (k a) fs) ->
  fails_clean (bind (lift o) k) fs.
Proof.
  intros Hk e. unfold bind. destruct o as [a|e']; cbn [lift ret throw].
  - now apply Hk.
  - reflexivity.
Qed.

(** A step that only reads, followed by steps that change nothing when
    they throw. *)
Lemma fails_clean_bind {A B} (c : FS A) (k : A -> FS B) (fs : FileSystem) :
  read_only c -> (forall a, fails_clean (k a) fs) -> fails_clean (bind c k) fs.
Proof.
  intros Hc Hk e. unfold bind. specialize (Hc fs).
  destruct (c fs) as [[a|e'] fs']; cbn in Hc; subst fs'; [apply Hk | reflexivity].
Qed.

(** A step that changes nothing when it throws, followed by a return. *)
Lemma fails_clean_then_ret {A B} (c : FS A) (b : B) (fs : FileSystem) :
  fails_clean c fs -> fails_clean (c ;;; ret b) fs.
Proof.
  intros Hc e. unfold bind. unfold fails_clean in Hc.
  destruct (c fs) as [[a|e'] fs']; cbn in *; [discriminate|].
  intros _. exact (Hc e' eq_refl).
Qed.

Lemma fails_clean_mkdir (now : Z) (p : jsstring) (r : bool) (fs : FileSystem) :
  rooted fs = true -> forallb Fs.fits (Fs.key p) = true ->
  fails_clean (Fs.mkdir now p r) fs.
Proof.
  intros Hr Hfits. unfold Fs.mkdir. destruct r.
  - intros e. cbv beta.
    destruct (fs !! Fs.key p);
      [exact (mkdirp_fails_clean now fs _ Hr Hfits [] e)|].
    destruct (Fs.first_error _); [reflexivity|].
    exact (mkdirp_fails_clean now fs _ Hr Hfits [] e).
  - intros e. cbv beta. destruct (fs !! Fs.key p); [reflexivity|].
    now destruct (Fs.creatable fs p).
Qed.


